(** * he-pilltag: the edit session and the inline prediction of [pilltag.js]

    A shallow embedding of the [PillTag] custom element of [src/pilltag.js]:
    its private fields, the part of the shadow tree the methods read and
    write, the listeners the constructor installs, and the methods
    [#openEdit], [#confirmEdit], [#abortEdit], [#predictEdit],
    [#confirmPrediction], [edit], [addAutoComplete] and the property
    setters.

    Strings are Rocq strings read as sequences of ASCII code units: on that
    range [toLowerCase], [toUpperCase], [trim], the classes [\w], [\s]
    and the default order of [Array.prototype.sort] are what ECMAScript
    defines, and the order on code units is the order on code points.
    Characters above 127 are carried along unchanged; [ascii_only] tells
    the strings without them. The prediction is embedded a second time on
    sequences of UTF-16 code units, in [UTF16], where the order of [sort]
    and the order of code points part ways. *)

From Stdlib Require Import String Ascii List Bool Arith NArith Lia.
From Stdlib Require Import Sorting.Sorted Sorting.Permutation.
Import ListNotations.
Open Scope string_scope.

(** ** Strings as the source uses them *)

Module JS.

Definition code (c : ascii) : N := N_of_ascii c.

Definition between (lo hi : N) (c : ascii) : bool :=
  ((lo <=? code c) && (code c <=? hi))%N.

Definition is_upper (c : ascii) : bool := between 65 90 c.
Definition is_lower (c : ascii) : bool := between 97 122 c.
Definition is_digit (c : ascii) : bool := between 48 57 c.

(** The class [\w] of a regular expression without flags: [A-Za-z0-9_]. *)
Definition is_word (c : ascii) : bool :=
  is_upper c || is_lower c || is_digit c || (code c =? 95)%N.

(** White space and line terminators below 128: TAB, LF, VT, FF, CR, SP.
    It is the set [trim] strips and the class [\s]. *)
Definition is_space (c : ascii) : bool :=
  between 9 13 c || (code c =? 32)%N.

(** [toUpperCase] and [toLowerCase] on one code unit below 128: the letters
    a to z and A to Z; every other code unit is left alone. *)
Definition upper_char (c : ascii) : ascii :=
  if is_lower c then ascii_of_N (code c - 32) else c.

Definition lower_char (c : ascii) : ascii :=
  if is_upper c then ascii_of_N (code c + 32) else c.

Fixpoint map_chars (f : ascii -> ascii) (s : string) : string :=
  match s with
  | EmptyString => EmptyString
  | String c r => String (f c) (map_chars f r)
  end.

Definition toLowerCase : string -> string := map_chars lower_char.
Definition toUpperCase : string -> string := map_chars upper_char.

Definition is_empty (s : string) : bool :=
  match s with EmptyString => true | String _ _ => false end.

Fixpoint trimStart (s : string) : string :=
  match s with
  | EmptyString => EmptyString
  | String c r => if is_space c then trimStart r else s
  end.

Fixpoint trimEnd (s : string) : string :=
  match s with
  | EmptyString => EmptyString
  | String c r =>
      let r' := trimEnd r in
      if is_space c && is_empty r' then EmptyString else String c r'
  end.

Definition trim (s : string) : string := trimEnd (trimStart s).

(** [s.startsWith(p)] *)
Definition startsWith (s p : string) : bool := String.prefix p s.

(** [s.slice(n)] and [s.substr(n)] for a start [n >= 0] and no end. *)
Fixpoint slice (n : nat) (s : string) : string :=
  match n, s with
  | O, _ => s
  | S _, EmptyString => EmptyString
  | S k, String _ r => slice k r
  end.

Definition substr : nat -> string -> string := slice.

(** [s.charAt(n)]: the one-character string at [n], or the empty string. *)
Definition charAt (n : nat) (s : string) : string :=
  match String.get n s with
  | Some c => String c EmptyString
  | None => EmptyString
  end.

(** [s.replace(/\w\S*/g, f)]: every maximal match starts at the next
    [\w] character and runs over the characters that are not white
    space; [m] is the match being read, if any. *)
Fixpoint replace_words (f : string -> string) (m : option string)
         (s : string) : string :=
  match s with
  | EmptyString =>
      match m with Some txt => f txt | None => EmptyString end
  | String c r =>
      match m with
      | Some txt =>
          if is_space c
          then f txt ++ String c (replace_words f None r)
          else replace_words f (Some (txt ++ String c EmptyString)) r
      | None =>
          if is_word c
          then replace_words f (Some (String c EmptyString)) r
          else String c (replace_words f None r)
      end
  end.

(** The callback of both [replace] calls in the source:
    [txt.charAt(0).toUpperCase() + txt.substr(1).toLowerCase()]. *)
Definition capitalize (txt : string) : string :=
  toUpperCase (charAt 0 txt) ++ toLowerCase (substr 1 txt).

Definition titleCase (s : string) : string :=
  replace_words capitalize None s.

(** [Array.prototype.sort] without a comparator, on an array of strings:
    ascending in the order of [String.leb] (code units, left to right,
    a proper prefix first). Equal strings cannot be told apart, so the
    sorted array is determined by the order alone. *)
Fixpoint insert_sorted (x : string) (l : list string) : list string :=
  match l with
  | [] => [x]
  | y :: r => if String.leb x y then x :: l else y :: insert_sorted x r
  end.

Fixpoint sort (l : list string) : list string :=
  match l with
  | [] => []
  | x :: r => insert_sorted x (sort r)
  end.

Definition mem (x : string) (l : list string) : bool :=
  existsb (String.eqb x) l.

(** [Array.from(new Set(l))]: the first occurrence of every string, in
    the order of insertion. *)
Fixpoint dedupe_from (seen : list string) (l : list string) : list string :=
  match l with
  | [] => []
  | x :: r =>
      if mem x seen then dedupe_from seen r
      else x :: dedupe_from (x :: seen) r
  end.

Definition dedupe (l : list string) : list string := dedupe_from [] l.

End JS.

(** ** The component *)

(** A JavaScript value, as far as the setters tell values apart:
    [typeof v === 'string'], [typeof v === 'boolean'], [Array.isArray(v)].
    Arrays are arrays of strings. *)
Inductive value : Type :=
| VUndefined
| VNull
| VBool (b : bool)
| VNumber (n : nat)
| VString (s : string)
| VArray (l : list string)
| VObject.

(** The children of the [#tag-text] span: text nodes, and the
    [<span id="prediction">] that [#predictEdit] appends. *)
Inductive node : Type :=
| Text (data : string)
| Prediction (ghost : string).

Definition node_text (n : node) : string :=
  match n with Text d => d | Prediction g => g end.

(** The [textContent] getter of an element: the text of all descendants. *)
Fixpoint textContent (ns : list node) : string :=
  match ns with
  | [] => EmptyString
  | n :: r => node_text n ++ textContent r
  end.

(** The [textContent] setter of an element: all children are replaced by one
    text node, or by nothing for the empty string. *)
Definition text_nodes (v : string) : list node :=
  if JS.is_empty v then [] else [Text v].

(** [getElementById('prediction')] and [querySelector('#prediction')]: the
    first such element in tree order. *)
Fixpoint find_prediction (ns : list node) : option string :=
  match ns with
  | [] => None
  | Text _ :: r => find_prediction r
  | Prediction g :: _ => Some g
  end.

(** [prediction.remove()] for that first element. *)
Fixpoint remove_prediction (ns : list node) : list node :=
  match ns with
  | [] => []
  | Text d :: r => Text d :: remove_prediction r
  | Prediction _ :: r => r
  end.

(** The custom events, with the fields of their [detail]. *)
Inductive event : Type :=
| TagClicked (tag : string)
| TagRemoved (tag : string)
| TagUpdated (newTag oldTag : string)
| TagAdded (newTag : string).

(** What [window.getSelection()] holds after the methods touched it. *)
Inductive selection : Type :=
| Untouched
| ContentsSelected
| CaretAtEnd.

Inductive key : Type :=
| Enter
| Escape
| Tab
| OtherKey.

(** The instance: the private fields, the state of the nodes they point to,
    and the traces of what the methods send out. [listeners] has one entry
    per run of the focus listener, which installs a blur, a keydown and an
    input listener closed over a fresh [justConfirmed]; the entry is the
    current value of that variable. [timers] are the pending
    [setTimeout(() => {justConfirmed = false;}, 0)] callbacks, by listener. *)
Record PillTag : Type := mkPillTag {
  editable : bool;
  removable : bool;
  removeButtonShown : bool;
  contenteditable : bool;
  childNodes : list node;
  focused : bool;
  labelShown : bool;
  autoComplete : list string;
  autoCompleteAttr : option (list string);
  originalText : string;
  selected : selection;
  listeners : list bool;
  timers : list nat;
  events : list event;
  console : list string
}.

Definition placeholder : string := "New Tag".

Section Updates.
Variable s : PillTag.

Definition with_editable v := mkPillTag v (removable s) (removeButtonShown s)
  (contenteditable s) (childNodes s) (focused s) (labelShown s) (autoComplete s)
  (autoCompleteAttr s) (originalText s) (selected s) (listeners s) (timers s)
  (events s) (console s).
Definition with_removable v := mkPillTag (editable s) v (removeButtonShown s)
  (contenteditable s) (childNodes s) (focused s) (labelShown s) (autoComplete s)
  (autoCompleteAttr s) (originalText s) (selected s) (listeners s) (timers s)
  (events s) (console s).
Definition with_removeButtonShown v := mkPillTag (editable s) (removable s) v
  (contenteditable s) (childNodes s) (focused s) (labelShown s) (autoComplete s)
  (autoCompleteAttr s) (originalText s) (selected s) (listeners s) (timers s)
  (events s) (console s).
Definition with_contenteditable v := mkPillTag (editable s) (removable s)
  (removeButtonShown s) v (childNodes s) (focused s) (labelShown s)
  (autoComplete s) (autoCompleteAttr s) (originalText s) (selected s)
  (listeners s) (timers s) (events s) (console s).
Definition with_childNodes v := mkPillTag (editable s) (removable s)
  (removeButtonShown s) (contenteditable s) v (focused s) (labelShown s)
  (autoComplete s) (autoCompleteAttr s) (originalText s) (selected s)
  (listeners s) (timers s) (events s) (console s).
Definition with_focused v := mkPillTag (editable s) (removable s)
  (removeButtonShown s) (contenteditable s) (childNodes s) v (labelShown s)
  (autoComplete s) (autoCompleteAttr s) (originalText s) (selected s)
  (listeners s) (timers s) (events s) (console s).
Definition with_labelShown v := mkPillTag (editable s) (removable s)
  (removeButtonShown s) (contenteditable s) (childNodes s) (focused s) v
  (autoComplete s) (autoCompleteAttr s) (originalText s) (selected s)
  (listeners s) (timers s) (events s) (console s).
Definition with_autoComplete v := mkPillTag (editable s) (removable s)
  (removeButtonShown s) (contenteditable s) (childNodes s) (focused s)
  (labelShown s) v (autoCompleteAttr s) (originalText s) (selected s)
  (listeners s) (timers s) (events s) (console s).
Definition with_autoCompleteAttr v := mkPillTag (editable s) (removable s)
  (removeButtonShown s) (contenteditable s) (childNodes s) (focused s)
  (labelShown s) (autoComplete s) v (originalText s) (selected s)
  (listeners s) (timers s) (events s) (console s).
Definition with_originalText v := mkPillTag (editable s) (removable s)
  (removeButtonShown s) (contenteditable s) (childNodes s) (focused s)
  (labelShown s) (autoComplete s) (autoCompleteAttr s) v (selected s)
  (listeners s) (timers s) (events s) (console s).
Definition with_selected v := mkPillTag (editable s) (removable s)
  (removeButtonShown s) (contenteditable s) (childNodes s) (focused s)
  (labelShown s) (autoComplete s) (autoCompleteAttr s) (originalText s) v
  (listeners s) (timers s) (events s) (console s).
Definition with_listeners v := mkPillTag (editable s) (removable s)
  (removeButtonShown s) (contenteditable s) (childNodes s) (focused s)
  (labelShown s) (autoComplete s) (autoCompleteAttr s) (originalText s)
  (selected s) v (timers s) (events s) (console s).
Definition with_timers v := mkPillTag (editable s) (removable s)
  (removeButtonShown s) (contenteditable s) (childNodes s) (focused s)
  (labelShown s) (autoComplete s) (autoCompleteAttr s) (originalText s)
  (selected s) (listeners s) v (events s) (console s).
Definition with_events v := mkPillTag (editable s) (removable s)
  (removeButtonShown s) (contenteditable s) (childNodes s) (focused s)
  (labelShown s) (autoComplete s) (autoCompleteAttr s) (originalText s)
  (selected s) (listeners s) (timers s) v (console s).
Definition with_console v := mkPillTag (editable s) (removable s)
  (removeButtonShown s) (contenteditable s) (childNodes s) (focused s)
  (labelShown s) (autoComplete s) (autoCompleteAttr s) (originalText s)
  (selected s) (listeners s) (timers s) (events s) v.
End Updates.

(** [this.dispatchEvent(new CustomEvent(...))] and [console.error(...)]. *)
Definition emit (e : event) (s : PillTag) : PillTag :=
  with_events s (events s ++ [e])%list.

Definition console_error (msg : string) (s : PillTag) : PillTag :=
  with_console s (console s ++ [msg])%list.

(** [this.#tagText.textContent], read and written. *)
Definition tagText (s : PillTag) : string := textContent (childNodes s).

Definition set_tagText (v : string) (s : PillTag) : PillTag :=
  with_childNodes s (text_nodes v).

(** *** Properties *)

(** [get autoComplete] and [set autoComplete]. *)
Definition get_autoComplete (s : PillTag) : list string := autoComplete s.

Definition set_autoComplete (v : value) (s : PillTag) : PillTag :=
  match v with
  | VArray l => with_autoComplete s l
  | _ => console_error "auto-complete must be an array" s
  end.

(** [set editable] and [set removable] take booleans and ignore the rest
    without a message. *)
Definition set_editable (v : value) (s : PillTag) : PillTag :=
  match v with
  | VBool b => with_editable s b
  | _ => s
  end.

Definition set_removable (v : value) (s : PillTag) : PillTag :=
  match v with
  | VBool b => with_removeButtonShown (with_removable s b) b
  | _ => s
  end.

(** [this.setAttribute('auto-complete', JSON.stringify(l))]. The attribute
    is observed, so [attributeChangedCallback] runs at once: the new value
    is not empty, ['autoComplete' in this] holds, and the setter receives
    [JSON.parse] of the text just written, the array [l] again. *)
Definition setAttribute_autoComplete (l : list string) (s : PillTag) : PillTag :=
  set_autoComplete (VArray l) (with_autoCompleteAttr s (Some l)).

(** [addAutoComplete(value)]: the title-cased string is pushed, and the
    array is replaced by the array of its distinct elements. *)
Definition addAutoComplete (v : value) (s : PillTag) : PillTag :=
  match v with
  | VString x =>
      let pushed := (autoComplete s ++ [JS.titleCase x])%list in
      let l := JS.dedupe pushed in
      setAttribute_autoComplete l (with_autoComplete s l)
  | _ => console_error "Value must be a string" s
  end.

(** [get textContent] and [set textContent]. *)
Definition get_textContent (s : PillTag) : string := originalText s.

Definition set_textContent (v : value) (s : PillTag) : PillTag :=
  match v with
  | VString x =>
      let s1 := set_tagText (JS.trim x) s in
      let s2 := with_originalText s1 (JS.trim x) in
      addAutoComplete (VString (JS.trim (tagText s2))) s2
  | _ => console_error "textContent must be a string" s
  end.

(** *** The edit session *)

(** [#abortEdit]: the text of the tag, rendered prediction included, is
    registered when it is not blank; then the tag shows [originalText]. *)
Definition abortEdit (s : PillTag) : PillTag :=
  let s1 :=
    if negb (JS.is_empty (JS.trim (tagText s)))
    then
      let s' := set_tagText (JS.trim (tagText s)) s in
      addAutoComplete (VString (JS.trim (tagText s'))) s'
    else set_tagText placeholder s in
  let s2 := with_contenteditable s1 false in
  let s3 := set_tagText (originalText s2) s2 in
  with_labelShown s3 false.

(** The blur listener installed by the [i]-th run of the focus listener. *)
Definition blur_listener (i : nat) (s : PillTag) : PillTag :=
  if nth i (listeners s) false then s else abortEdit s.

(** The listeners of one kind run in the order in which they were added. *)
Definition each_listener (f : nat -> PillTag -> PillTag) (s : PillTag) : PillTag :=
  fold_left (fun st i => f i st) (seq 0 (length (listeners s))) s.

(** [this.#tagText.blur()], and a blur caused by the user: the element
    loses the focus, if it has it, and the blur listeners run in the order
    in which they were added. *)
Definition tagText_blur (s : PillTag) : PillTag :=
  if focused s then each_listener blur_listener (with_focused s false) else s.

(** [#confirmEdit]; its last statement is [this.#tagText.blur()]. *)
Definition confirmEdit (s : PillTag) : PillTag :=
  let s1 :=
    if negb (JS.is_empty (JS.trim (tagText s)))
    then
      let s' := set_tagText (JS.titleCase (JS.trim (tagText s))) s in
      addAutoComplete (VString (JS.trim (tagText s'))) s'
    else set_tagText placeholder s in
  let s2 := with_contenteditable s1 false in
  let s3 :=
    if negb (JS.trim (tagText s2) =? originalText s2)
       && negb (originalText s2 =? placeholder)
    then emit (TagUpdated (JS.trim (tagText s2)) (originalText s2)) s2
    else s2 in
  let s4 :=
    if originalText s3 =? placeholder
    then emit (TagAdded (JS.trim (tagText s3))) s3
    else s3 in
  let s5 := with_originalText s4 (JS.trim (tagText s4)) in
  let s6 := with_labelShown s5 false in
  tagText_blur s6.

(** [this.#tagText.focus()]: nothing for the element that has the focus;
    otherwise it takes the focus and the focus listener [on_focus] runs. *)
Definition tagText_focus (on_focus : PillTag -> PillTag) (s : PillTag) : PillTag :=
  if focused s then s else on_focus (with_focused s true).

(** [#openEdit], for the focus listener [on_focus] that its call of
    [focus()] may start. *)
Definition openEdit_with (on_focus : PillTag -> PillTag) (s : PillTag) : PillTag :=
  if negb (editable s) then s
  else
    let s1 := with_contenteditable s true in
    let s2 := with_originalText s1 (JS.trim (tagText s1)) in
    let s3 := tagText_focus on_focus s2 in
    let s4 :=
      if JS.trim (tagText s3) =? placeholder
      then set_tagText EmptyString s3
      else s3 in
    if JS.trim (tagText s4) =? EmptyString
    then with_labelShown s4 true
    else with_selected (with_labelShown s4 false) ContentsSelected.

(** The focus listener of the constructor: [#openEdit], then one more
    blur, keydown and input listener with their own [justConfirmed]. It runs
    while the element has the focus, so the [focus()] inside [#openEdit]
    does nothing there. *)
Definition focus_listener (s : PillTag) : PillTag :=
  let s1 := openEdit_with (fun st => st) s in
  with_listeners s1 (listeners s1 ++ [false])%list.

Definition openEdit : PillTag -> PillTag := openEdit_with focus_listener.

(** [edit()] *)
Definition edit : PillTag -> PillTag := openEdit.

(** The element takes the focus by a click or by the keyboard. *)
Definition focus_event : PillTag -> PillTag := tagText_focus focus_listener.

Definition blur_event : PillTag -> PillTag := tagText_blur.

(** *** The prediction *)

(** The array [filtered] of [#predictEdit]. *)
Definition candidates (suggestions : list string) (inputText : string) : list string :=
  filter (fun item =>
            JS.startsWith (JS.toLowerCase item) (JS.trim (JS.toLowerCase inputText)))
         suggestions.

(** The text of the clone of [#tag-text] without its prediction. *)
Definition draft (s : PillTag) : string :=
  textContent (remove_prediction (childNodes s)).

(** The text of the new prediction span, when [#predictEdit] makes one. *)
Definition predict (suggestions : list string) (inputText : string) : option string :=
  if ((0 <? length suggestions) && (0 <? String.length inputText))%nat
  then
    let filtered := candidates suggestions inputText in
    if (0 <? length filtered)%nat
    then Some (JS.slice (String.length inputText) (nth 0 (JS.sort filtered) EmptyString))
    else None
  else None.

(** [#predictEdit]: the rendered prediction is removed, and a new one is
    appended when there is one. *)
Definition predictEdit (s : PillTag) : PillTag :=
  let inputText := draft s in
  let s1 := with_childNodes s (remove_prediction (childNodes s)) in
  match predict (autoComplete s1) inputText with
  | Some ghost => with_childNodes s1 (childNodes s1 ++ [Prediction ghost])%list
  | None => s1
  end.

(** [#confirmPrediction]: the text of the first child and the text of the
    prediction become the text of the tag, the caret goes to the end.
    [None] is the [TypeError] of reading [textContent] of [null] or of
    [undefined], when there is no prediction or no first child. *)
Definition confirmPrediction (s : PillTag) : option PillTag :=
  match find_prediction (childNodes s), childNodes s with
  | Some ghost, first :: _ =>
      let s1 := set_tagText (node_text first ++ ghost) s in
      Some (with_selected s1 CaretAtEnd)
  | _, _ => None
  end.

(** *** The listeners added by the focus listener *)

(** [justConfirmed = b] in the closure of the [i]-th run. *)
Definition set_justConfirmed (i : nat) (b : bool) (s : PillTag) : PillTag :=
  with_listeners s (firstn i (listeners s) ++
                    match skipn i (listeners s) with
                    | [] => []
                    | _ :: r => b :: r
                    end)%list.

Definition setTimeout_reset (i : nat) (s : PillTag) : PillTag :=
  with_timers s (timers s ++ [i])%list.

(** The next turn of the event queue: the pending callbacks run. *)
Definition run_timers (s : PillTag) : PillTag :=
  with_timers (fold_left (fun st i => set_justConfirmed i false st) (timers s) s) [].

(** [justConfirmed = true; this.#confirmEdit(); setTimeout(...)] *)
Definition confirm_guarded (i : nat) (s : PillTag) : PillTag :=
  setTimeout_reset i (confirmEdit (set_justConfirmed i true s)).

(** The keydown listener of the [i]-th run; the second component tells
    whether it called [e.preventDefault()]. *)
Definition keydown_listener (k : key) (i : nat) (s : PillTag) : PillTag * bool :=
  match k with
  | Enter => (confirm_guarded i s, true)
  | Escape => (abortEdit s, true)
  | Tab =>
      match find_prediction (childNodes s) with
      | Some _ =>
          (match confirmPrediction s with Some s' => s' | None => s end, true)
      | None => (confirm_guarded i s, false)
      end
  | OtherKey => (s, false)
  end.

Definition keydown_event (k : key) (s : PillTag) : PillTag * bool :=
  fold_left (fun (acc : PillTag * bool) i =>
               let (st, p) := keydown_listener k i (fst acc) in (st, snd acc || p))
            (seq 0 (length (listeners s))) (s, false).

(** The input listener: [#predictEdit], then the hint is shown exactly
    when the tag has no text. *)
Definition input_listener (i : nat) (s : PillTag) : PillTag :=
  let s1 := predictEdit s in
  if (0 <? String.length (tagText s1))%nat
  then with_labelShown s1 false
  else with_labelShown s1 true.

(** The user edits the text: the browser leaves the children [ns] in
    [#tag-text] and the input listeners run. *)
Definition input_event (ns : list node) (s : PillTag) : PillTag :=
  each_listener input_listener (with_childNodes s ns).

(** *** Construction *)

(** The constructor, for the host text [rawText] (joined text nodes,
    trimmed by the constructor) and the parsed [auto-complete] attribute. *)
Definition construct (hostText : string) (attr : option (list string)) : PillTag :=
  let rawText := JS.trim hostText in
  {| editable := false; removable := false; removeButtonShown := false;
     contenteditable := false; childNodes := text_nodes rawText;
     focused := false; labelShown := false;
     autoComplete := match attr with Some l => l | None => [] end;
     autoCompleteAttr := attr; originalText := rawText;
     selected := Untouched; listeners := []; timers := [];
     events := []; console := [] |}.

(** [connectedCallback], for the presence of the two attributes. *)
Definition connectedCallback (hasEditable hasRemovable : bool) (s : PillTag) : PillTag :=
  with_removable (with_editable s hasEditable) hasRemovable.

(** *** The pointer listeners and the attributes *)

(** The click listener of the text span. *)
Definition tagText_click (s : PillTag) : PillTag :=
  if negb (editable s)
  then emit (TagClicked (JS.trim (tagText s))) s
  else s.

(** The instance and whether the host element is in a document. *)
Record Mounted : Type := mkMounted {
  element : PillTag;
  isConnected : bool
}.

(** The click listener of the remove button: [this.remove()], then the
    event. *)
Definition removeButton_click (m : Mounted) : Mounted :=
  {| element := emit (TagRemoved (JS.trim (tagText (element m)))) (element m);
     isConnected := false |}.

(** [observedAttributes] *)
Inductive attribute : Type :=
| AutoCompleteAttribute
| EditableAttribute
| RemovableAttribute.

Definition attribute_name (a : attribute) : string :=
  match a with
  | AutoCompleteAttribute => "auto-complete"
  | EditableAttribute => "editable"
  | RemovableAttribute => "removable"
  end.

Definition is_hyphen (c : ascii) : bool := (JS.code c =? 45)%N.

(** [name.replace(/-([a-z])/g, (match, letter) => letter.toUpperCase())] *)
Fixpoint camelCase (s : string) : string :=
  match s with
  | EmptyString => EmptyString
  | String c r =>
      match r with
      | EmptyString => String c EmptyString
      | String d r' =>
          if is_hyphen c && JS.is_lower d
          then String (JS.upper_char d) (camelCase r')
          else String c (camelCase r)
      end
  end.

(** [attributeChangedCallback(name, oldValue, newValue)] for an observed
    attribute; [newValue] is [None] for [null]. [JSON_parse] stands for
    [JSON.parse], with [None] for a [SyntaxError], which leaves the callback
    before anything is assigned. The three names are properties of the
    instance, so [propertyName in this] holds. *)
Definition attributeChangedCallback (JSON_parse : string -> option value)
           (a : attribute) (newValue : option string) (s : PillTag) : PillTag :=
  let propertyName := camelCase (attribute_name a) in
  let text :=
    match newValue with
    | None => "true"
    | Some t => if JS.is_empty t then "true" else t
    end in
  match JSON_parse text with
  | None => s
  | Some v =>
      if propertyName =? "autoComplete" then set_autoComplete v s
      else if propertyName =? "editable" then set_editable v s
      else if propertyName =? "removable" then set_removable v s
      else s
  end.

Import JS.

(** ** Notions used to state the properties *)

(** *** On strings *)

(** A string that [trimStart] leaves alone is empty or starts with a
    character that is not white space. *)
Definition starts_clean (s : string) : bool :=
  match s with EmptyString => true | String c _ => negb (is_space c) end.

(** Two strings of the same length with white space at the same places. *)
Fixpoint same_spaces (a b : string) : Prop :=
  match a, b with
  | EmptyString, EmptyString => True
  | String c r, String d q => is_space c = is_space d /\ same_spaces r q
  | _, _ => False
  end.

Definition leb_rel (a b : string) : Prop := String.leb a b = true.

(** A string of ASCII characters: every code unit is below 128. *)
Fixpoint ascii_only (s : string) : bool :=
  match s with
  | EmptyString => true
  | String c r => (code c <? 128)%N && ascii_only r
  end.

(** *** On the states of the component *)

(** The suggestion list after [addAutoComplete(v)] for a string [v]. *)
Definition registered (l : list string) (v : string) : list string :=
  dedupe (l ++ [titleCase v])%list.

(** The suggestion list after [#abortEdit]. *)
Definition abort_registers (s : PillTag) : list string :=
  if is_empty (trim (tagText s)) then autoComplete s
  else registered (autoComplete s) (trim (tagText s)).

(** The tag shows [v], [v] is the snapshot, no session is open and [E] is
    what was emitted so far. The blur listeners keep all that: they only
    ever run [#abortEdit]. *)
Definition settled (v : string) (E : list event) (s : PillTag) : Prop :=
  childNodes s = text_nodes v /\ originalText s = v /\
  contenteditable s = false /\ events s = E.

(** The normalized value of a confirm, in the words of the specification:
    the title-cased trimmed text when that is not empty, the placeholder
    otherwise. *)
Definition confirmed_value (s : PillTag) : string :=
  if is_empty (trim (tagText s)) then placeholder
  else titleCase (trim (tagText s)).

(** The events of one run of [#confirmEdit], after its two tests. *)
Definition confirm_events (s : PillTag) : list event :=
  ((if negb (confirmed_value s =? originalText s)
       && negb (originalText s =? placeholder)
    then [TagUpdated (confirmed_value s) (originalText s)] else []) ++
   (if originalText s =? placeholder
    then [TagAdded (confirmed_value s)] else []))%list.

(** The events of one Enter, for the confirmed value [v], the
    [originalText] [o] and [more] keydown listeners after the first: the
    events of [#confirmEdit], then one tag-added for every further
    listener when [v] is the placeholder. *)
Definition enter_events (v o : string) (more : nat) : list event :=
  ((if negb (v =? o) && negb (o =? placeholder) then [TagUpdated v o]
    else if o =? placeholder then [TagAdded v] else []) ++
   (if v =? placeholder then repeat (TagAdded placeholder) more else []))%list.


(** The state [#openEdit] leaves behind when editing is enabled and the
    element has the focus already. *)
Definition opened (s : PillTag) : PillTag :=
  let t := JS.trim (tagText s) in
  let ns := if t =? placeholder then [] else childNodes s in
  let hint := JS.trim (textContent ns) =? "" in
  {| editable := editable s; removable := removable s;
     removeButtonShown := removeButtonShown s; contenteditable := true;
     childNodes := ns; focused := focused s; labelShown := hint;
     autoComplete := autoComplete s; autoCompleteAttr := autoCompleteAttr s;
     originalText := t;
     selected := if hint then selected s else ContentsSelected;
     listeners := listeners s; timers := timers s; events := events s;
     console := console s |}.

(** At most one prediction span among the children. *)
Definition one_prediction (ns : list node) : Prop :=
  find_prediction (remove_prediction ns) = None.

(** What editing the text and accepting a prediction leave alone. *)
Definition typing_frame (s s' : PillTag) : Prop :=
  originalText s' = originalText s /\ listeners s' = listeners s /\
  focused s' = focused s /\ events s' = events s /\
  autoComplete s' = autoComplete s /\ editable s' = editable s /\
  contenteditable s' = contenteditable s /\ timers s' = timers s /\
  console s' = console s.

(** The displayed value is the snapshot [v]. *)
Definition reverted (v : string) (s : PillTag) : Prop :=
  tagText s = v /\ originalText s = v.

(** Out of a session the tag shows [originalText], and [originalText] is
    always trimmed. *)
Definition shows_original (s : PillTag) : Prop :=
  trim (originalText s) = originalText s /\
  (contenteditable s = false -> childNodes s = text_nodes (originalText s)).



Definition isArray (v : value) : bool :=
  match v with VArray _ => true | _ => false end.

Definition isString (v : value) : bool :=
  match v with VString _ => true | _ => false end.

(** *** Runs of the component *)

(** The user edits the text several times in a row. *)
Definition type_all (inputs : list (list node)) (s : PillTag) : PillTag :=
  fold_left (fun st ns => input_event ns st) inputs s.

(** What the user can do in a session short of ending it: edit the text,
    accept a prediction, press a key the listeners ignore. *)
Inductive typing (s : PillTag) : PillTag -> Prop :=
| typing_start : typing s s
| typing_input st ns : typing s st -> typing s (input_event ns st)
| typing_accept st st' :
    typing s st -> confirmPrediction st = Some st' -> typing s st'
| typing_other_key st :
    typing s st -> typing s (fst (keydown_event OtherKey st)).

(** One call from the page or one event from the user; the browser sends
    input events to an editable element only. *)
Inductive step (s : PillTag) : PillTag -> Prop :=
| step_connected e r : step s (connectedCallback e r s)
| step_set_editable v : step s (set_editable v s)
| step_set_removable v : step s (set_removable v s)
| step_set_autoComplete v : step s (set_autoComplete v s)
| step_set_textContent v : step s (set_textContent v s)
| step_addAutoComplete v : step s (addAutoComplete v s)
| step_edit : step s (edit s)
| step_focus : step s (focus_event s)
| step_blur : step s (blur_event s)
| step_key k : step s (fst (keydown_event k s))
| step_input ns : contenteditable s = true -> step s (input_event ns s)
| step_tick : step s (run_timers s).

Inductive reachable : PillTag -> Prop :=
| reachable_construct hostText attr : reachable (construct hostText attr)
| reachable_step s s' : reachable s -> step s s' -> reachable s'.

(** *** Sample tags *)

(** [<he-pilltag editable auto-complete='[...]'>hostText</he-pilltag>],
    connected to the document. *)
Definition fresh_tag (hostText : string) (suggestions : list string) : PillTag :=
  connectedCallback true false (construct hostText (Some suggestions)).

Definition tag_new : PillTag := fresh_tag "New Tag" [].

Definition tag_foo : PillTag := fresh_tag "Foo" ["Apple"].

(** The same without the [editable] attribute. *)
Definition tag_locked : PillTag :=
  connectedCallback false false (construct "Foo" (Some ["Apple"])).

(** A draft of one space. *)
Definition tag_space : PillTag :=
  with_childNodes (fresh_tag "Foo" ["Apple"]) [Text " "].

(** The suggestions and the draft of the tie-break example. *)
Definition tag_fruit : PillTag :=
  with_childNodes (fresh_tag "Foo" ["apple"; "Apricot"; "avocado"]) [Text "a"].

(** The user typed "mango" into the tag that shows "Foo". *)
Definition tag_mango : PillTag :=
  input_event [Text "mango"] (focus_event tag_foo).

(** The user typed "Bar" into the tag that shows "Foo". *)
Definition tag_bar : PillTag :=
  input_event [Text "Bar"] (focus_event tag_foo).

(** The tag shows "Tag"; first session: focus, Enter; second session: focus,
    the user types "Ap". *)
Definition tag_second_session : PillTag :=
  input_event [Text "Ap"]
    (focus_event
       (run_timers
          (fst (keydown_event Enter
                  (focus_event (fresh_tag "Tag" ["Apple"; "Apricot"])))))).

(** The tag shows "Tag"; first session: focus, Enter; second session: focus,
    the user deletes the text. *)
Definition tag_cleared : PillTag :=
  input_event []
    (focus_event
       (run_timers
          (fst (keydown_event Enter (focus_event (fresh_tag "Tag" [])))))).


(** *** Statements of the specification that the code does not meet *)


(** C3 as written, for a draft that is empty once trimmed. *)
Definition no_prediction_for_blank_draft (s : PillTag) : Prop :=
  autoComplete s = [] \/ JS.trim (draft s) = "" ->
  find_prediction (childNodes (predictEdit s)) = None.


(** C8 as written: no entry when editing is disabled or a session is open. *)
Definition entry_is_noop (s : PillTag) : Prop :=
  editable s = false \/ contenteditable s = true -> edit s = s.

(** C10 as written, for a state [st] of a session entered from [s]: the
    getter still returns what it returned before the session. *)
Definition getter_keeps_value_of (s st : PillTag) : Prop :=
  contenteditable st = true -> get_textContent st = get_textContent s.

(** *** Notions for the further properties *)

(** Title case read one character at a time: [inside] tells whether the
    character before belongs to a match of [\w\S*]. *)
Fixpoint title_scan (inside : bool) (s : string) : string :=
  match s with
  | EmptyString => EmptyString
  | String c r =>
      if inside
      then if is_space c then String c (title_scan false r)
           else String (lower_char c) (title_scan true r)
      else if is_word c then String (upper_char c) (title_scan true r)
           else String c (title_scan false r)
  end.

(** The tag is settled on [v] and the suggestions are [A]. *)
Definition settled_with (A : list string) (v : string) (E : list event) (s : PillTag) : Prop :=
  settled v E s /\ autoComplete s = A.

(** The state [#confirmEdit] reaches before its call of [blur()]. *)
Definition confirmed (s : PillTag) : PillTag :=
  let v := confirmed_value s in
  let blank := is_empty (trim (tagText s)) in
  let l := if blank then autoComplete s else registered (autoComplete s) v in
  {| editable := editable s; removable := removable s;
     removeButtonShown := removeButtonShown s; contenteditable := false;
     childNodes := text_nodes v; focused := focused s; labelShown := false;
     autoComplete := l;
     autoCompleteAttr := if blank then autoCompleteAttr s else Some l;
     originalText := v; selected := selected s;
     listeners := listeners s; timers := timers s;
     events := (events s ++ confirm_events s)%list; console := console s |}.

(** [JSON.parse] on the two texts the boolean attributes are written with;
    other texts are left undecoded. *)
Definition parse_literals (text : string) : option value :=
  if text =? "true" then Some (VBool true)
  else if text =? "false" then Some (VBool false)
  else None.

(** What the payloads of the events look like. *)
Definition event_ok (e : event) : Prop :=
  match e with
  | TagUpdated n o =>
      trim n = n /\ titleCase n = n /\ n <> "" /\ n <> o /\
      o <> placeholder /\ trim o = o
  | TagAdded n => trim n = n /\ titleCase n = n /\ n <> ""
  | TagClicked t => trim t = t
  | TagRemoved t => trim t = t
  end.

(** Out of a session the hint is hidden; all events so far are well formed. *)
Definition tidy (s : PillTag) : Prop :=
  (contenteditable s = false -> labelShown s = false) /\
  Forall event_ok (events s).

(** The states of a run that also has clicks and attribute changes. *)
Inductive visited (JSON_parse : string -> option value) : PillTag -> Prop :=
| visited_construct hostText attr : visited JSON_parse (construct hostText attr)
| visited_step s s' : visited JSON_parse s -> step s s' -> visited JSON_parse s'
| visited_click s : visited JSON_parse s -> visited JSON_parse (tagText_click s)
| visited_attribute s a newValue :
    visited JSON_parse s ->
    visited JSON_parse (attributeChangedCallback JSON_parse a newValue s).

Definition sound (s : PillTag) : Prop := shows_original s /\ tidy s.

(** The tag that shows "Foo", after a focus, the input "kiwi" and Enter. *)
Definition tag_kiwi : PillTag :=
  fst (keydown_event Enter (input_event [Text "kiwi"] (focus_event tag_foo))).

(** ** The prediction on strings of UTF-16 code units

    A JavaScript string is a sequence of 16-bit code units: [length],
    [slice], [startsWith] and the order of [sort] count and compare code
    units, and a character above U+FFFF takes two of them, a surrogate
    pair. The prediction of [#predictEdit] is embedded here once more on
    such sequences, to tell its order from the order of code points. *)

Module UTF16.

Definition in_range (lo hi u : N) : bool := ((lo <=? u) && (u <=? hi))%N.

(** [WhiteSpace] and [LineTerminator] of ECMAScript, the code units that
    [trim] strips: TAB, LF, VT, FF, CR, SP, NBSP, U+1680, U+2000 to U+200A,
    LS, PS, U+202F, U+205F, U+3000 and U+FEFF. *)
Definition is_space (u : N) : bool :=
  in_range 0x09 0x0D u || (u =? 0x20)%N || (u =? 0xA0)%N || (u =? 0x1680)%N ||
  in_range 0x2000 0x200A u || (u =? 0x2028)%N || (u =? 0x2029)%N ||
  (u =? 0x202F)%N || (u =? 0x205F)%N || (u =? 0x3000)%N || (u =? 0xFEFF)%N.

Fixpoint trimStart (s : list N) : list N :=
  match s with
  | [] => []
  | u :: r => if is_space u then trimStart r else s
  end.

Fixpoint trimEnd (s : list N) : list N :=
  match s with
  | [] => []
  | u :: r =>
      match trimEnd r with
      | [] => if is_space u then [] else [u]
      | r' => u :: r'
      end
  end.

Definition trim (s : list N) : list N := trimEnd (trimStart s).

Definition is_ascii (s : list N) : bool := forallb (fun u => (u <? 0x80)%N) s.

Definition lower_unit (u : N) : N :=
  if in_range 0x41 0x5A u then (u + 0x20)%N else u.

Section Prediction.

(** The case mapping of Unicode on the strings that are not ASCII; nothing
    is assumed about it. *)
Variable lower_case : list N -> list N.

(** [s.toLowerCase()]: on a string of ASCII characters the letters A to Z
    are mapped; any other string is left to [lower_case]. *)
Definition toLowerCase (s : list N) : list N :=
  if is_ascii s then map lower_unit s else lower_case s.

(** [s.startsWith(p)] *)
Fixpoint startsWith (s p : list N) {struct p} : bool :=
  match p, s with
  | [], _ => true
  | _ :: _, [] => false
  | a :: p', b :: s' => (a =? b)%N && startsWith s' p'
  end.

(** [s.slice(n)] for a start [n >= 0] and no end. *)
Fixpoint slice (n : nat) (s : list N) : list N :=
  match n, s with
  | O, _ => s
  | S _, [] => []
  | S k, _ :: r => slice k r
  end.

(** [a <= b] in the order in which [sort] without a comparator puts
    strings: code unit by code unit from the left, a proper prefix first. *)
Fixpoint leb (a b : list N) : bool :=
  match a, b with
  | [], _ => true
  | _ :: _, [] => false
  | x :: a', y :: b' =>
      if (x <? y)%N then true
      else if (y <? x)%N then false
      else leb a' b'
  end.

Fixpoint insert_sorted (x : list N) (l : list (list N)) : list (list N) :=
  match l with
  | [] => [x]
  | y :: r => if leb x y then x :: l else y :: insert_sorted x r
  end.

Fixpoint sort (l : list (list N)) : list (list N) :=
  match l with
  | [] => []
  | x :: r => insert_sorted x (sort r)
  end.

(** The array [filtered] of [#predictEdit]. *)
Definition candidates (suggestions : list (list N)) (inputText : list N) : list (list N) :=
  filter (fun item => startsWith (toLowerCase item) (trim (toLowerCase inputText)))
         suggestions.

(** [filtered.sort()[0]], when the two tests of [#predictEdit] let it be
    read. *)
Definition pick (suggestions : list (list N)) (inputText : list N) : option (list N) :=
  if ((0 <? length suggestions) && (0 <? length inputText))%nat
  then
    let filtered := candidates suggestions inputText in
    if (0 <? length filtered)%nat then Some (nth 0 (sort filtered) []) else None
  else None.

(** The text of the new prediction span, when [#predictEdit] makes one:
    [filtered.sort()[0].slice(inputText.length)]. *)
Definition predict (suggestions : list (list N)) (inputText : list N) : option (list N) :=
  match pick suggestions inputText with
  | Some first => Some (slice (length inputText) first)
  | None => None
  end.

End Prediction.

(** The code points of a string: a high surrogate followed by a low one
    stands for one code point above U+FFFF. *)
Definition is_high_surrogate (u : N) : bool := in_range 0xD800 0xDBFF u.
Definition is_low_surrogate (u : N) : bool := in_range 0xDC00 0xDFFF u.

Fixpoint code_points (s : list N) : list N :=
  match s with
  | [] => []
  | h :: r =>
      match r with
      | [] => [h]
      | l :: r' =>
          if is_high_surrogate h && is_low_surrogate l
          then (0x10000 + (h - 0xD800) * 0x400 + (l - 0xDC00))%N :: code_points r'
          else h :: code_points r
      end
  end.

(** [a <= b] in the order of code points. *)
Definition code_point_leb (a b : list N) : bool := leb (code_points a) (code_points b).

(** The code units of a string of the component's model. *)
Definition units (s : string) : list N := map N_of_ascii (list_ascii_of_string s).

(** Two strings in the order of [sort]. *)
Definition ordered (a b : list N) : Prop := leb a b = true.

(** U+FF5E, a character of one code unit, and U+1F600, a surrogate pair. *)
Definition fullwidth_tilde : list N := [0xFF5E]%N.
Definition grinning_face : list N := [0xD83D; 0xDE00]%N.

(** C4 as written: the prediction is taken from the candidate that is
    first in the order of code points. *)
Definition picks_least_code_points (lower_case : list N -> list N)
           (suggestions : list (list N)) (inputText : list N) : Prop :=
  forall m,
    In m (candidates lower_case suggestions inputText) ->
    (forall x, In x (candidates lower_case suggestions inputText) ->
               code_point_leb m x = true) ->
    predict lower_case suggestions inputText = Some (slice (length inputText) m).

End UTF16.

(** * Properties *)

(** ** Strings *)

Module JSFacts.

Ltac each_char c := destruct c as [[] [] [] [] [] [] [] []]; vm_compute; reflexivity.

Lemma is_space_lower_char c : is_space (lower_char c) = is_space c.
Proof. each_char c. Qed.

Lemma lower_upper_char c : lower_char (upper_char c) = lower_char c.
Proof. each_char c. Qed.

Lemma lower_lower_char c : lower_char (lower_char c) = lower_char c.
Proof. each_char c. Qed.

(** *** Append, length, emptiness *)

Lemma append_nil_r s : s ++ "" = s.
Proof. induction s; simpl; congruence. Qed.

Lemma append_assoc a b c : (a ++ b) ++ c = a ++ (b ++ c).
Proof. induction a; simpl; congruence. Qed.

Lemma map_chars_append f a b : map_chars f (a ++ b) = map_chars f a ++ map_chars f b.
Proof. induction a; simpl; congruence. Qed.

Lemma map_chars_length f s : String.length (map_chars f s) = String.length s.
Proof. induction s; simpl; congruence. Qed.

Lemma is_empty_map_chars f s : is_empty (map_chars f s) = is_empty s.
Proof. destruct s; reflexivity. Qed.

Lemma toLowerCase_idem s : toLowerCase (toLowerCase s) = toLowerCase s.
Proof.
  unfold toLowerCase. induction s; simpl; [reflexivity|].
  now rewrite lower_lower_char, IHs.
Qed.

(** *** Trimming *)

Lemma trimStart_length s : String.length (trimStart s) <= String.length s.
Proof. induction s; simpl; [lia|]. destruct (is_space a); simpl; lia. Qed.

Lemma trimEnd_length s : String.length (trimEnd s) <= String.length s.
Proof.
  induction s; simpl; [lia|].
  destruct (is_space a && is_empty (trimEnd s)); simpl; lia.
Qed.

Lemma trimStart_fixed_or_shorter s :
  trimStart s = s \/ String.length (trimStart s) < String.length s.
Proof.
  destruct s; simpl; [now left|].
  destruct (is_space a); [right|now left].
  pose proof (trimStart_length s). lia.
Qed.

Lemma trimStart_clean s : starts_clean (trimStart s) = true.
Proof.
  induction s; simpl; [reflexivity|].
  destruct (is_space a) eqn:E; simpl; [assumption|now rewrite E].
Qed.

Lemma trimStart_of_clean s : starts_clean s = true -> trimStart s = s.
Proof. destruct s; simpl; [reflexivity|]. now destruct (is_space a). Qed.

Lemma trimEnd_keeps_clean s : starts_clean s = true -> starts_clean (trimEnd s) = true.
Proof.
  destruct s; simpl; [reflexivity|].
  destruct (is_space a) eqn:E; simpl; [discriminate|now rewrite E].
Qed.

Lemma trimEnd_idem s : trimEnd (trimEnd s) = trimEnd s.
Proof.
  induction s; simpl; [reflexivity|].
  destruct (is_space a && is_empty (trimEnd s)) eqn:E; simpl; [reflexivity|].
  now rewrite IHs, E.
Qed.

Lemma trim_idem s : trim (trim s) = trim s.
Proof.
  unfold trim.
  rewrite (trimStart_of_clean (trimEnd (trimStart s))).
  - apply trimEnd_idem.
  - apply trimEnd_keeps_clean, trimStart_clean.
Qed.

Lemma trim_fixed_parts s : trim s = s -> trimStart s = s /\ trimEnd s = s.
Proof.
  unfold trim. intros H.
  destruct (trimStart_fixed_or_shorter s) as [E|L].
  - split; [assumption|]. now rewrite E in H.
  - exfalso. pose proof (trimEnd_length (trimStart s)) as L'.
    rewrite H in L'. lia.
Qed.

Section MapChars.
Variable f : ascii -> ascii.
Hypothesis f_space : forall c, is_space (f c) = is_space c.

Lemma trimStart_map_chars s : trimStart (map_chars f s) = map_chars f (trimStart s).
Proof.
  induction s; simpl; [reflexivity|].
  rewrite f_space. now destruct (is_space a).
Qed.

Lemma trimEnd_map_chars s : trimEnd (map_chars f s) = map_chars f (trimEnd s).
Proof.
  induction s; simpl; [reflexivity|].
  rewrite f_space, IHs, is_empty_map_chars.
  now destruct (is_space a && is_empty (trimEnd s)).
Qed.

Lemma trim_map_chars s : trim (map_chars f s) = map_chars f (trim s).
Proof. unfold trim. now rewrite trimStart_map_chars, trimEnd_map_chars. Qed.
End MapChars.

Lemma trim_toLowerCase s : trim (toLowerCase s) = toLowerCase (trim s).
Proof. apply trim_map_chars, is_space_lower_char. Qed.

Lemma same_lower_same_spaces a :
  forall b, toLowerCase a = toLowerCase b -> same_spaces a b.
Proof.
  induction a as [|c r IH]; intros [|d q]; simpl; try discriminate; [trivial|].
  intros H. injection H as Hc Hr. split; [|now apply IH].
  now rewrite <- (is_space_lower_char c), Hc, is_space_lower_char.
Qed.

Lemma same_spaces_empty a b : same_spaces a b -> is_empty a = is_empty b.
Proof. destruct a, b; simpl; tauto. Qed.

Lemma trimStart_fixed_transfer a b :
  same_spaces a b -> trimStart a = a -> trimStart b = b.
Proof.
  destruct a as [|c r], b as [|d q]; simpl; try tauto.
  intros [Hc _]. rewrite <- Hc.
  destruct (is_space c); [|reflexivity].
  intros H. exfalso. pose proof (trimStart_length r) as L.
  rewrite H in L. simpl in L. lia.
Qed.

Lemma trimEnd_fixed_transfer a :
  forall b, same_spaces a b -> trimEnd a = a -> trimEnd b = b.
Proof.
  induction a as [|c r IH]; intros [|d q]; simpl; try tauto.
  intros [Hc Hr] H.
  destruct (is_space c && is_empty (trimEnd r)) eqn:E; [discriminate|].
  injection H as H.
  rewrite (IH q Hr H).
  rewrite H in E. rewrite <- Hc, <- (same_spaces_empty _ _ Hr), E.
  reflexivity.
Qed.

Lemma trim_fixed_transfer a b : same_spaces a b -> trim a = a -> trim b = b.
Proof.
  intros S H. destruct (trim_fixed_parts a H) as [H1 H2].
  unfold trim. rewrite (trimStart_fixed_transfer a b S H1).
  now apply (trimEnd_fixed_transfer a).
Qed.

(** *** Title case *)

Lemma toLowerCase_capitalize m : toLowerCase (capitalize m) = toLowerCase m.
Proof.
  destruct m as [|c r]; [reflexivity|].
  unfold capitalize, charAt, substr. simpl.
  unfold toLowerCase at 1. simpl.
  rewrite lower_upper_char. fold toLowerCase.
  now rewrite toLowerCase_idem.
Qed.

Lemma toLowerCase_replace_words s :
  forall m,
    toLowerCase (replace_words capitalize m s) =
    toLowerCase (match m with Some txt => txt | None => "" end ++ s).
Proof.
  induction s as [|c r IH]; intros [txt|]; simpl.
  - now rewrite toLowerCase_capitalize, append_nil_r.
  - reflexivity.
  - destruct (is_space c).
    + unfold toLowerCase. rewrite !map_chars_append. simpl.
      fold toLowerCase. now rewrite toLowerCase_capitalize, (IH None).
    + rewrite (IH (Some (txt ++ String c ""))). now rewrite append_assoc.
  - destruct (is_word c).
    + now rewrite (IH (Some (String c ""))).
    + unfold toLowerCase. simpl. fold toLowerCase. now rewrite (IH None).
Qed.

Lemma toLowerCase_titleCase s : toLowerCase (titleCase s) = toLowerCase s.
Proof. unfold titleCase. now rewrite toLowerCase_replace_words. Qed.

Lemma titleCase_same_spaces s : same_spaces s (titleCase s).
Proof. apply same_lower_same_spaces. now rewrite toLowerCase_titleCase. Qed.

Lemma trim_titleCase_fixed s : trim s = s -> trim (titleCase s) = titleCase s.
Proof. apply trim_fixed_transfer, titleCase_same_spaces. Qed.

Lemma trim_titleCase_trim s : trim (titleCase (trim s)) = titleCase (trim s).
Proof. apply trim_titleCase_fixed, trim_idem. Qed.

(** *** Prefixes *)

Lemma prefix_refl s : String.prefix s s = true.
Proof.
  induction s; simpl; [reflexivity|].
  destruct (ascii_dec a a); [assumption|congruence].
Qed.

Lemma startsWith_refl s : startsWith s s = true.
Proof. apply prefix_refl. Qed.

(** *** The order of [sort] *)

Lemma ascii_compare_refl a : Ascii.compare a a = Eq.
Proof. unfold Ascii.compare. apply N.compare_refl. Qed.

Lemma ascii_compare_lt_trans a b c :
  Ascii.compare a b = Lt -> Ascii.compare b c = Lt -> Ascii.compare a c = Lt.
Proof. unfold Ascii.compare. rewrite !N.compare_lt_iff. lia. Qed.

Lemma compare_refl s : String.compare s s = Eq.
Proof. induction s; simpl; [reflexivity|]. now rewrite ascii_compare_refl. Qed.

Lemma compare_lt_trans s1 :
  forall s2 s3, String.compare s1 s2 = Lt -> String.compare s2 s3 = Lt ->
                String.compare s1 s3 = Lt.
Proof.
  induction s1 as [|a s1 IH]; intros [|b s2] [|c s3]; simpl;
    try discriminate; try reflexivity.
  destruct (Ascii.compare a b) eqn:Eab; try discriminate;
    destruct (Ascii.compare b c) eqn:Ebc; try discriminate; intros H1 H2.
  - apply Ascii.compare_eq_iff in Eab, Ebc. subst.
    rewrite ascii_compare_refl. eauto.
  - apply Ascii.compare_eq_iff in Eab. subst. now rewrite Ebc.
  - apply Ascii.compare_eq_iff in Ebc. subst. now rewrite Eab.
  - now rewrite (ascii_compare_lt_trans a b c).
Qed.

Lemma leb_cases s1 s2 :
  String.leb s1 s2 = true <-> String.compare s1 s2 = Lt \/ s1 = s2.
Proof.
  unfold String.leb. destruct (String.compare s1 s2) eqn:E; split; intros H; auto.
  - right. now apply String.compare_eq_iff.
  - discriminate.
  - destruct H as [H|H]; [discriminate|]. subst. rewrite compare_refl in E. discriminate.
Qed.

Lemma leb_refl s : String.leb s s = true.
Proof. apply leb_cases. now right. Qed.

Lemma leb_trans s1 s2 s3 :
  String.leb s1 s2 = true -> String.leb s2 s3 = true -> String.leb s1 s3 = true.
Proof.
  rewrite !leb_cases. intros [H1|H1] [H2|H2]; subst; auto.
  left. eapply compare_lt_trans; eauto.
Qed.

Lemma leb_false_flip s1 s2 : String.leb s1 s2 = false -> String.leb s2 s1 = true.
Proof. destruct (String.leb_total s1 s2); congruence. Qed.

Lemma insert_sorted_perm x l : Permutation (x :: l) (insert_sorted x l).
Proof.
  induction l as [|y r IH]; simpl; [apply Permutation_refl|].
  destruct (String.leb x y); [apply Permutation_refl|].
  eapply perm_trans; [apply perm_swap|]. now apply perm_skip.
Qed.

Lemma sort_perm l : Permutation l (sort l).
Proof.
  induction l as [|x r IH]; simpl; [constructor|].
  eapply perm_trans; [apply perm_skip, IH|apply insert_sorted_perm].
Qed.

Lemma insert_sorted_sorted x l :
  Sorted leb_rel l -> Sorted leb_rel (insert_sorted x l).
Proof.
  induction l as [|y r IH]; simpl; intros S.
  - repeat constructor.
  - destruct (String.leb x y) eqn:E.
    + constructor; [assumption|]. now constructor.
    + inversion S as [|? ? Sr Hy]; subst.
      constructor; [now apply IH|].
      destruct r as [|z r']; simpl.
      * constructor. now apply leb_false_flip.
      * destruct (String.leb x z); constructor.
        -- now apply leb_false_flip.
        -- now inversion Hy.
Qed.

Lemma sort_sorted l : Sorted leb_rel (sort l).
Proof.
  induction l; simpl; [constructor|]. now apply insert_sorted_sorted.
Qed.

Lemma sorted_hd_least l :
  Sorted leb_rel l -> forall d x, In x l -> String.leb (hd d l) x = true.
Proof.
  induction 1 as [|y r S IH Hy]; intros d x; simpl; [tauto|].
  intros [->|Hx]; [apply leb_refl|].
  destruct r as [|z r']; [destruct Hx|].
  inversion Hy; subst.
  eapply leb_trans; [eassumption|]. now apply (IH z).
Qed.

Lemma sort_in x l : In x (sort l) <-> In x l.
Proof.
  split; intros H.
  - eapply Permutation_in; [apply Permutation_sym, sort_perm|assumption].
  - eapply Permutation_in; [apply sort_perm|assumption].
Qed.

Lemma sort_nonempty l : l <> [] -> sort l <> [].
Proof.
  intros N E. apply N. apply Permutation_nil.
  rewrite <- E. apply Permutation_sym, sort_perm.
Qed.

Lemma sort_first_least l d :
  l <> [] ->
  In (nth 0 (sort l) d) l /\ forall x, In x l -> String.leb (nth 0 (sort l) d) x = true.
Proof.
  intros N. pose proof (sort_nonempty l N) as N'.
  assert (nth 0 (sort l) d = hd d (sort l)) as -> by now destruct (sort l).
  split.
  - apply sort_in. destruct (sort l); [congruence|now left].
  - intros x Hx. apply sorted_hd_least; [apply sort_sorted|now apply sort_in].
Qed.

(** *** [dedupe] *)

Lemma mem_in x l : mem x l = true <-> In x l.
Proof.
  unfold mem. rewrite existsb_exists. split.
  - intros [y [Hy E]]. apply String.eqb_eq in E. now subst.
  - intros H. exists x. split; [assumption|apply String.eqb_refl].
Qed.

Lemma dedupe_from_in x l :
  forall seen, In x (dedupe_from seen l) <-> In x l /\ ~ In x seen.
Proof.
  induction l as [|y r IH]; intros seen; simpl; [tauto|].
  destruct (mem y seen) eqn:E.
  - rewrite IH. apply mem_in in E. split; [tauto|].
    intros [[->|H] N]; tauto.
  - assert (~ In y seen) as Ny.
    { intros H. apply mem_in in H. congruence. }
    simpl. rewrite IH. simpl.
    split.
    + intros [->|[H N]]; tauto.
    + intros [[->|H] N]; [now left|].
      destruct (string_dec y x); [now left|right; tauto].
Qed.

Lemma dedupe_in x l : In x (dedupe l) <-> In x l.
Proof. unfold dedupe. rewrite dedupe_from_in. simpl. tauto. Qed.

Lemma dedupe_from_nodup l : forall seen, NoDup (dedupe_from seen l).
Proof.
  induction l as [|y r IH]; intros seen; simpl; [constructor|].
  destruct (mem y seen); [apply IH|].
  constructor; [|apply IH].
  rewrite dedupe_from_in. simpl. tauto.
Qed.

Lemma dedupe_nodup l : NoDup (dedupe l).
Proof. apply dedupe_from_nodup. Qed.

(** *** The functions on sample strings *)

Example titleCase_words : titleCase "hello wORLD" = "Hello World".
Proof. reflexivity. Qed.

Example titleCase_punctuation : titleCase "  (foo)-bar 9x_ Y" = "  (Foo)-bar 9x_ Y".
Proof. reflexivity. Qed.

Example trim_both_ends : trim "  a b  " = "a b".
Proof. reflexivity. Qed.

Example sort_upper_case_first :
  sort ["apple"; "Apricot"; "avocado"] = ["Apricot"; "apple"; "avocado"].
Proof. reflexivity. Qed.

Example dedupe_keeps_first : dedupe ["a"; "b"; "a"; "c"; "b"] = ["a"; "b"; "c"].
Proof. reflexivity. Qed.

End JSFacts.

Import JSFacts.

(** ** The component *)

(** Projections of a state built by the methods. *)
Ltac fields :=
  unfold emit, console_error, set_tagText, tagText, setAttribute_autoComplete,
    set_autoComplete, addAutoComplete;
  cbn [editable removable removeButtonShown contenteditable childNodes focused
       labelShown autoComplete autoCompleteAttr originalText selected listeners
       timers events console
       with_editable with_removable with_removeButtonShown with_contenteditable
       with_childNodes with_focused with_labelShown with_autoComplete
       with_autoCompleteAttr with_originalText with_selected with_listeners
       with_timers with_events with_console negb andb orb fst snd].

(** *** The children of the text span *)

Lemma textContent_text_nodes v : textContent (text_nodes v) = v.
Proof. destruct v; simpl; [reflexivity|]. now rewrite append_nil_r. Qed.

Lemma tagText_set_tagText v s : tagText (set_tagText v s) = v.
Proof. apply textContent_text_nodes. Qed.

Lemma find_prediction_text_nodes v : find_prediction (text_nodes v) = None.
Proof. now destruct v. Qed.

(** *** [#abortEdit] and the blur listeners *)

Lemma abortEdit_unfold s :
  abortEdit s =
  {| editable := editable s; removable := removable s;
     removeButtonShown := removeButtonShown s; contenteditable := false;
     childNodes := text_nodes (originalText s); focused := focused s;
     labelShown := false; autoComplete := abort_registers s;
     autoCompleteAttr :=
       if is_empty (trim (tagText s)) then autoCompleteAttr s
       else Some (abort_registers s);
     originalText := originalText s; selected := selected s;
     listeners := listeners s; timers := timers s; events := events s;
     console := console s |}.
Proof.
  unfold abortEdit, abort_registers, registered.
  destruct (is_empty (trim (tagText s))) eqn:E; simpl; [reflexivity|].
  rewrite tagText_set_tagText, trim_idem.
  reflexivity.
Qed.

Lemma each_listener_ind (P : PillTag -> Prop) f s :
  P s -> (forall i st, P st -> P (f i st)) -> P (each_listener f s).
Proof.
  unfold each_listener. intros H0 Hstep.
  generalize (seq 0 (length (listeners s))) as l. revert H0. generalize s as st.
  intros st H0 l. revert st H0.
  induction l as [|i l IH]; simpl; intros st H0; [assumption|].
  apply IH, Hstep, H0.
Qed.

Lemma abortEdit_settled v E s : settled v E s -> settled v E (abortEdit s).
Proof.
  intros (Hc & Ho & He & Hev). rewrite abortEdit_unfold.
  unfold settled; simpl. now rewrite Ho.
Qed.

Lemma tagText_blur_settled v E s : settled v E s -> settled v E (tagText_blur s).
Proof.
  intros H. unfold tagText_blur. destruct (focused s); [|assumption].
  apply each_listener_ind.
  - exact H.
  - intros i st Hst. unfold blur_listener.
    destruct (nth i (listeners st) false); [assumption|].
    now apply abortEdit_settled.
Qed.

(** *** [#confirmEdit] *)

Lemma trim_confirmed_value s : trim (confirmed_value s) = confirmed_value s.
Proof.
  unfold confirmed_value. destruct (is_empty (trim (tagText s))); [reflexivity|].
  apply trim_titleCase_trim.
Qed.

Lemma confirmEdit_settled s :
  settled (confirmed_value s) (events s ++ confirm_events s)%list (confirmEdit s).
Proof.
  unfold confirmEdit. apply tagText_blur_settled.
  unfold settled, confirm_events.
  pose proof (trim_confirmed_value s) as T. unfold confirmed_value in *.
  unfold tagText in *.
  destruct (is_empty (trim (textContent (childNodes s)))) eqn:E;
    destruct (originalText s =? placeholder) eqn:O;
    match goal with
    | |- context [negb (?v =? originalText s)] =>
        destruct (v =? originalText s) eqn:P
    end;
    repeat (fields; rewrite ?textContent_text_nodes, ?T, ?O, ?P);
    rewrite ?app_nil_r; repeat split; reflexivity.
Qed.

(** *** [#openEdit] and the focus listener *)

Lemma openEdit_with_focused h s :
  editable s = true -> focused s = true -> openEdit_with h s = opened s.
Proof.
  intros He Hf. unfold openEdit_with, tagText_focus.
  rewrite He. fields. rewrite Hf. unfold opened.
  change (text_nodes "") with (@nil node).
  destruct (trim (textContent (childNodes s)) =? placeholder) eqn:P;
    repeat (fields; rewrite ?P); cbn [textContent].
  - reflexivity.
  - destruct (trim (textContent (childNodes s)) =? "") eqn:Q; reflexivity.
Qed.

Lemma focus_listener_editable s :
  editable s = true -> focused s = true ->
  focus_listener s = with_listeners (opened s) (listeners s ++ [false])%list.
Proof.
  intros He Hf. unfold focus_listener. now rewrite openEdit_with_focused.
Qed.

Lemma openEdit_unfocused s :
  editable s = true -> focused s = false ->
  openEdit s = with_listeners (opened (with_focused s true)) (listeners s ++ [false])%list.
Proof.
  intros He Hf. unfold openEdit, openEdit_with, tagText_focus.
  rewrite He. fields. rewrite Hf.
  rewrite focus_listener_editable by (fields; first [assumption|reflexivity]).
  unfold opened. fields.
  change (text_nodes "") with (@nil node).
  destruct (trim (textContent (childNodes s)) =? placeholder) eqn:P;
    repeat (fields; rewrite ?P); cbn [textContent].
  - reflexivity.
  - destruct (trim (textContent (childNodes s)) =? "") eqn:Q;
      repeat (fields; rewrite ?P, ?Q); reflexivity.
Qed.

Lemma focus_event_unfocused s :
  editable s = true -> focused s = false ->
  focus_event s = with_listeners (opened (with_focused s true)) (listeners s ++ [false])%list.
Proof.
  intros He Hf. unfold focus_event, tagText_focus. rewrite Hf.
  now rewrite focus_listener_editable.
Qed.

Lemma edit_is_focus_event s :
  editable s = true -> focused s = false -> edit s = focus_event s.
Proof.
  intros He Hf. unfold edit.
  now rewrite openEdit_unfocused, focus_event_unfocused.
Qed.

Lemma openEdit_originalText s :
  editable s = true -> originalText (openEdit s) = trim (tagText s).
Proof.
  intros He. destruct (focused s) eqn:Hf.
  - unfold openEdit. now rewrite openEdit_with_focused.
  - now rewrite openEdit_unfocused.
Qed.

Lemma openEdit_events s : events (openEdit s) = events s.
Proof.
  destruct (editable s) eqn:He.
  - destruct (focused s) eqn:Hf.
    + unfold openEdit. now rewrite openEdit_with_focused.
    + now rewrite openEdit_unfocused.
  - unfold openEdit, openEdit_with. now rewrite He.
Qed.

Lemma openEdit_tagText s :
  editable s = true ->
  tagText (openEdit s) =
  if trim (tagText s) =? placeholder then "" else tagText s.
Proof.
  intros He. destruct (focused s) eqn:Hf.
  - unfold openEdit. rewrite openEdit_with_focused by assumption.
    unfold opened, tagText. fields.
    now destruct (trim (textContent (childNodes s)) =? placeholder).
  - rewrite openEdit_unfocused by assumption.
    unfold opened, tagText. fields.
    now destruct (trim (textContent (childNodes s)) =? placeholder).
Qed.

(** *** [#predictEdit] *)

Lemma find_prediction_app ns ms :
  find_prediction (ns ++ ms) =
  match find_prediction ns with Some g => Some g | None => find_prediction ms end.
Proof.
  induction ns as [|[d|g] r IH]; simpl; auto.
Qed.

Lemma remove_prediction_none ns :
  find_prediction ns = None -> remove_prediction ns = ns.
Proof.
  induction ns as [|[d|g] r IH]; simpl; intros H; [reflexivity| |discriminate].
  now rewrite IH.
Qed.

Lemma remove_prediction_app_none ns ms :
  find_prediction ns = None ->
  remove_prediction (ns ++ ms) = (ns ++ remove_prediction ms)%list.
Proof.
  induction ns as [|[d|g] r IH]; simpl; intros H; [reflexivity| |discriminate].
  now rewrite IH.
Qed.

Lemma predictEdit_childNodes s :
  childNodes (predictEdit s) =
  (remove_prediction (childNodes s) ++
   match predict (autoComplete s) (draft s) with
   | Some g => [Prediction g]
   | None => []
   end)%list.
Proof.
  unfold predictEdit. fields.
  destruct (predict (autoComplete s) (draft s)); fields;
    now rewrite ?app_nil_r.
Qed.

Lemma predictEdit_find s :
  one_prediction (childNodes s) ->
  find_prediction (childNodes (predictEdit s)) = predict (autoComplete s) (draft s).
Proof.
  unfold one_prediction. intros H.
  rewrite predictEdit_childNodes, find_prediction_app, H.
  now destruct (predict (autoComplete s) (draft s)).
Qed.

Lemma predictEdit_draft s :
  one_prediction (childNodes s) -> draft (predictEdit s) = draft s.
Proof.
  unfold one_prediction, draft. intros H.
  rewrite predictEdit_childNodes, remove_prediction_app_none by assumption.
  destruct (predict (autoComplete s) (draft s)); simpl; now rewrite app_nil_r.
Qed.

Lemma predictEdit_one_prediction s :
  one_prediction (childNodes s) -> one_prediction (childNodes (predictEdit s)).
Proof.
  unfold one_prediction. intros H.
  rewrite predictEdit_childNodes, remove_prediction_app_none by assumption.
  rewrite find_prediction_app, H.
  now destruct (predict (autoComplete s) (draft s)).
Qed.

Lemma candidates_in S T x :
  In x (candidates S T) <->
  In x S /\ startsWith (toLowerCase x) (toLowerCase (trim T)) = true.
Proof.
  unfold candidates. rewrite filter_In, trim_toLowerCase. reflexivity.
Qed.

Lemma candidates_as_specified S T :
  candidates S T =
  filter (fun x => startsWith (toLowerCase x) (toLowerCase (trim T))) S.
Proof.
  unfold candidates. now rewrite trim_toLowerCase.
Qed.

Lemma predict_empty_draft S : predict S "" = None.
Proof. unfold predict. simpl. now rewrite andb_false_r. Qed.

Lemma predict_computed S T :
  S <> [] -> T <> "" ->
  predict S T =
  match candidates S T with
  | [] => None
  | _ :: _ => Some (slice (String.length T) (nth 0 (sort (candidates S T)) ""))
  end.
Proof.
  intros HS HT. unfold predict.
  destruct S as [|x S]; [congruence|]. destruct T as [|c T]; [congruence|].
  cbn [length String.length Nat.ltb Nat.leb andb].
  now destruct (candidates (x :: S) (String c T)).
Qed.

Lemma candidates_nonempty_suggestions S T : candidates S T <> [] -> S <> [].
Proof. intros H ->. now apply H. Qed.

(** *** What typing leaves alone *)

Lemma typing_frame_refl s : typing_frame s s.
Proof. repeat split. Qed.

Lemma typing_frame_trans a b c :
  typing_frame a b -> typing_frame b c -> typing_frame a c.
Proof.
  unfold typing_frame. intros H1 H2.
  decompose [and] H1. decompose [and] H2. repeat split; congruence.
Qed.

Lemma predictEdit_frame s : typing_frame s (predictEdit s).
Proof.
  unfold predictEdit.
  destruct (predict _ _); repeat split.
Qed.

Lemma input_listener_frame i s : typing_frame s (input_listener i s).
Proof.
  unfold input_listener.
  apply typing_frame_trans with (predictEdit s); [apply predictEdit_frame|].
  destruct (0 <? String.length (tagText (predictEdit s)))%nat; repeat split.
Qed.

Lemma input_event_frame ns s : typing_frame s (input_event ns s).
Proof.
  unfold input_event.
  apply typing_frame_trans with (with_childNodes s ns); [repeat split|].
  apply each_listener_ind with (P := typing_frame (with_childNodes s ns)).
  - apply typing_frame_refl.
  - intros i st H. eapply typing_frame_trans; [exact H|apply input_listener_frame].
Qed.

Lemma confirmPrediction_frame s s' :
  confirmPrediction s = Some s' -> typing_frame s s'.
Proof.
  unfold confirmPrediction.
  destruct (find_prediction (childNodes s)); [|discriminate].
  destruct (childNodes s); [discriminate|].
  intros H. injection H as <-. repeat split.
Qed.

Lemma confirmPrediction_guarded s g :
  find_prediction (childNodes s) = Some g -> exists s', confirmPrediction s = Some s'.
Proof.
  unfold confirmPrediction. intros H. rewrite H.
  destruct (childNodes s); [discriminate|]. eauto.
Qed.

(** *** Abort by key and by blur *)

Lemma abortEdit_tagText s : tagText (abortEdit s) = originalText s.
Proof. rewrite abortEdit_unfold. unfold tagText. fields. apply textContent_text_nodes. Qed.

Lemma abortEdit_originalText s : originalText (abortEdit s) = originalText s.
Proof. now rewrite abortEdit_unfold. Qed.

Lemma abortEdit_listeners s : listeners (abortEdit s) = listeners s.
Proof. now rewrite abortEdit_unfold. Qed.

Lemma abortEdit_reverted s : reverted (originalText s) (abortEdit s).
Proof. split; [apply abortEdit_tagText|apply abortEdit_originalText]. Qed.

Lemma abortEdit_keeps_reverted v s : reverted v s -> reverted v (abortEdit s).
Proof.
  intros [_ Ho]. rewrite <- Ho. apply abortEdit_reverted.
Qed.

Lemma keydown_event_fst k s :
  fst (keydown_event k s) =
  fold_left (fun st i => fst (keydown_listener k i st))
            (seq 0 (length (listeners s))) s.
Proof.
  unfold keydown_event.
  generalize (seq 0 (length (listeners s))) as l.
  generalize false as p. generalize s as st.
  intros st p l. revert st p.
  induction l as [|i l IH]; intros st p; simpl; [reflexivity|].
  destruct (keydown_listener k i st) as [st' q] eqn:E. simpl.
  now rewrite IH.
Qed.

Lemma escape_reverts s :
  listeners s <> [] -> reverted (originalText s) (fst (keydown_event Escape s)).
Proof.
  intros N. rewrite keydown_event_fst.
  destruct (listeners s) as [|b ls]; [congruence|].
  cbn [length seq fold_left keydown_listener fst].
  generalize (seq 1 (length ls)) as l.
  pose proof (abortEdit_reverted s) as H. revert H.
  generalize (abortEdit s) as st. intros st H l. revert st H.
  induction l as [|i l IH]; intros st H; simpl; [assumption|].
  now apply IH, abortEdit_keeps_reverted.
Qed.

Lemma blur_listener_originalText i s :
  originalText (blur_listener i s) = originalText s.
Proof.
  unfold blur_listener. destruct (nth i (listeners s) false); [reflexivity|].
  apply abortEdit_originalText.
Qed.

Lemma blur_listener_listeners i s :
  listeners (blur_listener i s) = listeners s.
Proof.
  unfold blur_listener. destruct (nth i (listeners s) false); [reflexivity|].
  apply abortEdit_listeners.
Qed.

Lemma blur_event_reverts s ls :
  focused s = true -> listeners s = (ls ++ [false])%list ->
  reverted (originalText s) (blur_event s).
Proof.
  intros Hf Hl. unfold blur_event, tagText_blur, each_listener. rewrite Hf.
  cbn [listeners with_focused]. rewrite Hl.
  rewrite length_app. cbn [length]. rewrite Nat.add_1_r, seq_S, fold_left_app.
  cbn [fold_left Nat.add].
  set (st := fold_left _ _ _).
  assert (originalText st = originalText s /\ listeners st = (ls ++ [false])%list) as [Ho Hls].
  { subst st. generalize (seq 0 (length ls)) as l.
    assert (originalText (with_focused s false) = originalText s /\
            listeners (with_focused s false) = (ls ++ [false])%list) as H
        by (split; [reflexivity|exact Hl]).
    revert H. generalize (with_focused s false) as st.
    intros st H l. revert st H.
    induction l as [|i l IH]; intros st [H1 H2]; simpl; [now split|].
    apply IH. rewrite blur_listener_originalText, blur_listener_listeners. now split. }
  unfold blur_listener. rewrite Hls, nth_middle.
  rewrite <- Ho. apply abortEdit_reverted.
Qed.

(** ** The edit session and the prediction, claim by claim *)

Lemma type_all_frame inputs s : typing_frame s (type_all inputs s).
Proof.
  unfold type_all. revert s.
  induction inputs as [|ns r IH]; intros s; simpl; [apply typing_frame_refl|].
  eapply typing_frame_trans; [apply input_event_frame|apply IH].
Qed.

(** One run of [#confirmEdit] after [#openEdit], from the placeholder
    state: the entry empties the draft, and the confirm of the empty draft
    shows the placeholder again and emits one notification, tag-added with
    the placeholder as [newTag]. *)
Lemma placeholder_confirm_emits_tag_added (s : PillTag) :
  editable s = true ->
  JS.trim (tagText s) = placeholder ->
  tagText (openEdit s) = "" /\
  tagText (confirmEdit (openEdit s)) = placeholder /\
  events (confirmEdit (openEdit s)) = (events s ++ [TagAdded placeholder])%list.
Proof.
  intros He Hp.
  assert (tagText (openEdit s) = "") as Ht.
  { rewrite openEdit_tagText by assumption. now rewrite Hp. }
  assert (confirmed_value (openEdit s) = placeholder) as Hv.
  { unfold confirmed_value. now rewrite Ht. }
  assert (confirm_events (openEdit s) = [TagAdded placeholder]) as Hev.
  { unfold confirm_events. rewrite Hv, openEdit_originalText, Hp by assumption.
    reflexivity. }
  destruct (confirmEdit_settled (openEdit s)) as (Hc & Ho & _ & Hevs).
  split; [assumption|]. split.
  - unfold tagText. rewrite Hc, Hv. reflexivity.
  - now rewrite Hevs, Hev, openEdit_events.
Qed.

Lemma placeholder_confirm_emits_tag_added_witness :
  editable tag_new = true /\
  events (confirmEdit (openEdit tag_new)) = [TagAdded "New Tag"].
Proof.
  split; [reflexivity|].
  exact (proj2 (proj2 (placeholder_confirm_emits_tag_added tag_new eq_refl eq_refl))).
Defined.


(** The same through the listeners of a tag that was never focused:
    focus, then Enter. *)
Lemma placeholder_enter_emits_tag_added :
  let s' := fst (keydown_event Enter (focus_event tag_new)) in
  tagText s' = placeholder /\ events s' = [TagAdded placeholder] /\
  autoComplete s' = [].
Proof. vm_compute. repeat split. Qed.

(** *** Confirm *)

(** One run of [#confirmEdit] emits tag-updated, with the confirmed
    value and the old [originalText], exactly when the confirmed value
    differs from [originalText] and [originalText] is not the placeholder;
    otherwise it emits tag-added with the confirmed value exactly when
    [originalText] is the placeholder, whatever the confirmed value; nothing
    else is emitted, and the confirmed value is what the tag then shows and
    what [originalText] becomes. *)
Lemma confirm_notifications (s : PillTag) :
  let v := confirmed_value s in
  let o := originalText s in
  events (confirmEdit s) =
    (events s ++
     if negb (v =? o) && negb (o =? placeholder) then [TagUpdated v o]
     else if o =? placeholder then [TagAdded v]
     else [])%list /\
  tagText (confirmEdit s) = v /\
  originalText (confirmEdit s) = v /\
  contenteditable (confirmEdit s) = false.
Proof.
  intros v o.
  destruct (confirmEdit_settled s) as (Hc & Ho & He & Hev).
  fold v in Hc, Ho. split; [|split; [|split]]; try assumption.
  - rewrite Hev. f_equal. unfold confirm_events. fold v o.
    destruct (o =? placeholder); [|now rewrite app_nil_r].
    now rewrite andb_false_r.
  - unfold tagText. rewrite Hc. apply textContent_text_nodes.
Qed.

(** *** Prediction *)

(** C3, as the code has it: the candidates are exactly the suggestions whose
    lower-case form starts with the lower-case trimmed draft; the span
    [#predictEdit] leaves is the one [predict] computes, the one rendered
    before being removed; and there is none when the suggestion list is
    empty or the draft has no character, and otherwise none exactly when
    there is no candidate. *)
Theorem prediction_filter (s : PillTag) :
  one_prediction (childNodes s) ->
  let S := autoComplete s in
  let T := draft s in
  candidates S T =
    filter (fun x => JS.startsWith (JS.toLowerCase x) (JS.toLowerCase (JS.trim T))) S /\
  childNodes (predictEdit s) =
    (remove_prediction (childNodes s) ++
     match predict S T with Some g => [Prediction g] | None => [] end)%list /\
  find_prediction (childNodes (predictEdit s)) = predict S T /\
  if ((length S =? 0) || (String.length T =? 0))%nat
  then predict S T = None
  else predict S T = None <-> candidates S T = [].
Proof.
  intros H1 S T.
  split; [apply candidates_as_specified|].
  split; [apply predictEdit_childNodes|].
  split; [now apply predictEdit_find|].
  destruct S as [|x S']; [reflexivity|].
  destruct T as [|c T']; [apply predict_empty_draft|].
  cbn [length String.length Nat.eqb orb].
  rewrite predict_computed by discriminate.
  destruct (candidates (x :: S') (String c T')); split; congruence.
Qed.

Lemma prediction_filter_witness :
  one_prediction (childNodes tag_space) /\
  find_prediction (childNodes (predictEdit tag_space)) = Some "pple".
Proof.
  split; [reflexivity|].
  exact (eq_trans (proj1 (proj2 (proj2 (prediction_filter tag_space eq_refl)))) eq_refl).
Defined.

Lemma blank_draft_gets_prediction :
  JS.trim (draft tag_space) = "" /\ ~ no_prediction_for_blank_draft tag_space.
Proof.
  split; [reflexivity|].
  intros H. specialize (H (or_intror eq_refl)). vm_compute in H. discriminate.
Qed.

(** On the component: when the draft has a character and there is a
    candidate, the prediction span holds the [slice] of the one candidate
    that is below all others in the order of [String.leb]. *)
Lemma prediction_picks_least (s : PillTag) :
  one_prediction (childNodes s) ->
  draft s <> "" ->
  candidates (autoComplete s) (draft s) <> [] ->
  exists m,
    In m (candidates (autoComplete s) (draft s)) /\
    (forall x, In x (candidates (autoComplete s) (draft s)) -> String.leb m x = true) /\
    (forall m', In m' (candidates (autoComplete s) (draft s)) ->
                (forall x, In x (candidates (autoComplete s) (draft s)) ->
                           String.leb m' x = true) -> m' = m) /\
    find_prediction (childNodes (predictEdit s)) =
      Some (JS.slice (String.length (draft s)) m).
Proof.
  intros H1 HT HC.
  destruct (sort_first_least (candidates (autoComplete s) (draft s)) "" HC) as [Hin Hle].
  exists (nth 0 (sort (candidates (autoComplete s) (draft s))) "").
  split; [assumption|]. split; [assumption|]. split.
  - intros m' Hm' Hle'. apply String.leb_antisym; auto.
  - rewrite predictEdit_find by assumption.
    rewrite predict_computed; [|now apply candidates_nonempty_suggestions with (T := draft s)|assumption].
    destruct (candidates (autoComplete s) (draft s)); [congruence|reflexivity].
Qed.

Lemma prediction_picks_least_witness :
  draft tag_fruit = "a" /\
  candidates (autoComplete tag_fruit) (draft tag_fruit) = ["apple"; "Apricot"; "avocado"] /\
  exists m,
    In m ["apple"; "Apricot"; "avocado"] /\
    (forall x, In x ["apple"; "Apricot"; "avocado"] -> String.leb m x = true) /\
    find_prediction (childNodes (predictEdit tag_fruit)) = Some (JS.slice 1 m).
Proof.
  split; [reflexivity|]. split; [reflexivity|].
  destruct (prediction_picks_least tag_fruit eq_refl) as (m & H1 & H2 & _ & H4).
  - discriminate.
  - discriminate.
  - exists m. repeat split; assumption.
Defined.

Example prediction_for_fruit :
  JS.sort (candidates ["apple"; "Apricot"; "avocado"] "a") = ["Apricot"; "apple"; "avocado"] /\
  predict ["apple"; "Apricot"; "avocado"] "a" = Some "pricot" /\
  childNodes (predictEdit tag_fruit) = [Text "a"; Prediction "pricot"].
Proof. repeat split. Qed.

(** *** The Tab key *)

Lemma tab_accepts_with_one_listener s b d r g :
  listeners s = [b] ->
  childNodes s = Text d :: r ->
  find_prediction (childNodes s) = Some g ->
  keydown_event Tab s = (with_selected (set_tagText (d ++ g) s) CaretAtEnd, true).
Proof.
  intros Hl Hc Hp. unfold keydown_event. rewrite Hl.
  cbn [length seq fold_left fst snd keydown_listener].
  unfold confirmPrediction. rewrite Hp, Hc. reflexivity.
Qed.

Lemma slice_length s : slice (String.length s) s = "".
Proof. induction s; simpl; auto. Qed.

(** A draft equal to a suggestion still gets a prediction span; its text is
    empty when that suggestion is the first of the sorted candidates. *)
Lemma exact_match_keeps_prediction S T :
  In T S -> T <> "" -> trim T = T ->
  exists m, In m (candidates S T) /\
            predict S T = Some (slice (String.length T) m) /\
            (String.leb T m = true -> predict S T = Some "").
Proof.
  intros Hin HT Htrim.
  assert (In T (candidates S T)) as HC.
  { apply candidates_in. split; [assumption|]. rewrite Htrim. apply startsWith_refl. }
  assert (candidates S T <> []) as HN by (intros E; rewrite E in HC; destruct HC).
  destruct (sort_first_least (candidates S T) "" HN) as [Hm Hle].
  exists (nth 0 (sort (candidates S T)) "").
  assert (predict S T = Some (slice (String.length T) (nth 0 (sort (candidates S T)) ""))) as HP.
  { rewrite predict_computed; [|now apply candidates_nonempty_suggestions with (T := T)|assumption].
    destruct (candidates S T); [congruence|reflexivity]. }
  split; [assumption|]. split; [assumption|].
  intros Hleast. rewrite HP.
  rewrite <- (String.leb_antisym _ _ Hleast (Hle T HC)).
  now rewrite slice_length.
Qed.

Lemma confirm_guarded_no_prediction i s :
  find_prediction (childNodes (confirm_guarded i s)) = None.
Proof.
  unfold confirm_guarded, setTimeout_reset. fields.
  destruct (confirmEdit_settled (set_justConfirmed i true s)) as (Hc & _).
  rewrite Hc. apply find_prediction_text_nodes.
Qed.

Lemma tab_without_prediction_is_enter s :
  find_prediction (childNodes s) = None ->
  fst (keydown_event Tab s) = fst (keydown_event Enter s).
Proof.
  intros H. rewrite !keydown_event_fst.
  generalize (seq 0 (length (listeners s))) as l. revert H. generalize s as st.
  intros st H l. revert st H.
  induction l as [|i l IH]; intros st H; simpl; [reflexivity|].
  rewrite H. cbn [fst]. apply IH, confirm_guarded_no_prediction.
Qed.

(** C5 at the second edit session of a tag: the prediction "ple" is
    rendered and two keydown listeners are installed; Tab makes the first
    accept the prediction and the second, which finds no prediction any
    more, confirm: the session is over and tag-updated is emitted. *)
Theorem tab_in_second_session_confirms :
  childNodes tag_second_session = [Text "Ap"; Prediction "ple"] /\
  contenteditable tag_second_session = true /\
  listeners tag_second_session = [false; false] /\
  events tag_second_session = [] /\
  let after := fst (keydown_event Tab tag_second_session) in
  childNodes after = [Text "Apple"] /\
  contenteditable after = false /\
  events after = [TagUpdated "Apple" "Tag"].
Proof. vm_compute. repeat split. Qed.

(** In the first session the same key only accepts, and Enter then
    confirms the accepted text. *)
Example tab_in_first_session_accepts :
  let s := input_event [Text "Ap"] (focus_event (fresh_tag "Tag" ["Apple"; "Apricot"])) in
  childNodes s = [Text "Ap"; Prediction "ple"] /\
  let after := fst (keydown_event Tab s) in
  childNodes after = [Text "Apple"] /\
  contenteditable after = true /\
  events after = [] /\
  events (fst (keydown_event Enter after)) = [TagUpdated "Apple" "Tag"].
Proof. vm_compute. repeat split. Qed.

(** *** Abort restores and registers *)

(** C6: for a tag without the focus that shows a trimmed value, entering
    edit mode by [edit()] or by focus, typing anything any number of times
    and aborting, by [#abortEdit] itself, by Escape or by a blur, shows the
    value shown before, which is the [originalText] snapshot of the entry. *)
Theorem abort_restores_displayed_value (s entered : PillTag) (inputs : list (list node)) :
  editable s = true ->
  focused s = false ->
  JS.trim (tagText s) = tagText s ->
  entered = edit s \/ entered = focus_event s ->
  let session := type_all inputs entered in
  originalText session = tagText s /\
  tagText (abortEdit session) = tagText s /\
  tagText (fst (keydown_event Escape session)) = tagText s /\
  tagText (blur_event session) = tagText s.
Proof.
  intros He Hf Ht Hentered session.
  assert (entered = focus_event s) as ->.
  { destruct Hentered as [->| ->]; [now apply edit_is_focus_event|reflexivity]. }
  pose proof (type_all_frame inputs (focus_event s)) as F.
  fold session in F. destruct F as (Fo & Fl & Ff & _).
  rewrite focus_event_unfocused in Fo, Fl, Ff by assumption.
  unfold opened, tagText in Fo.
  cbn [originalText listeners focused childNodes with_listeners with_focused] in Fo, Fl, Ff.
  fold (tagText s) in Fo. rewrite Ht in Fo.
  split; [assumption|]. split; [|split].
  - now rewrite abortEdit_tagText.
  - rewrite <- Fo. apply escape_reverts. rewrite Fl. now destruct (listeners s).
  - rewrite <- Fo. eapply blur_event_reverts; eassumption.
Qed.

Lemma abort_restores_displayed_value_witness :
  tagText tag_foo = "Foo" /\
  tagText (fst (keydown_event Escape
                  (type_all [[Text "B"]; [Text "Ba"]; [Text "Bar"]] (focus_event tag_foo)))) = "Foo".
Proof.
  split; [reflexivity|].
  exact (proj1 (proj2 (proj2 (abort_restores_displayed_value tag_foo (focus_event tag_foo)
           [[Text "B"]; [Text "Ba"]; [Text "Bar"]] eq_refl eq_refl eq_refl (or_intror eq_refl))))).
Defined.

(** With the focus already on the tag, [edit()] adds no listener; the abort
    itself restores the value all the same. *)
Lemma abort_restores_after_edit s inputs :
  editable s = true -> JS.trim (tagText s) = tagText s ->
  tagText (abortEdit (type_all inputs (edit s))) = tagText s.
Proof.
  intros He Ht. rewrite abortEdit_tagText.
  destruct (type_all_frame inputs (edit s)) as (Fo & _). rewrite Fo.
  unfold edit. now rewrite openEdit_originalText.
Qed.

Lemma draft_without_prediction s :
  find_prediction (childNodes s) = None -> draft s = tagText s.
Proof. intros H. unfold draft, tagText. now rewrite remove_prediction_none. Qed.

Lemma registered_in l v : In (titleCase v) (registered l v).
Proof. unfold registered. apply dedupe_in, in_or_app. right. now left. Qed.


(** What [#abortEdit] registers, whatever is rendered: the title-cased
    trimmed text of the tag, ghost text included. *)
Lemma abortEdit_autoComplete s :
  autoComplete (abortEdit s) =
  if is_empty (trim (tagText s)) then autoComplete s
  else registered (autoComplete s) (trim (tagText s)).
Proof. now rewrite abortEdit_unfold. Qed.

(** One run of [#abortEdit] with no ghost text rendered shows
    [originalText] again; a draft that is empty once trimmed registers
    nothing; any other registers the title-cased form of the trimmed draft,
    which is then a candidate for every draft whose lower-case trimmed form
    starts the lower-case form of the aborted one. *)
Lemma abort_registers_title_cased_draft (s : PillTag) :
  find_prediction (childNodes s) = None ->
  let v := JS.trim (draft s) in
  let s' := abortEdit s in
  tagText s' = originalText s /\
  if JS.is_empty v
  then autoComplete s' = autoComplete s
  else In (JS.titleCase v) (autoComplete s') /\
       forall D, JS.startsWith (JS.toLowerCase v) (JS.toLowerCase (JS.trim D)) = true ->
                 In (JS.titleCase v) (candidates (autoComplete s') D).
Proof.
  intros H v s'. subst v s'.
  rewrite draft_without_prediction by assumption.
  split; [apply abortEdit_tagText|].
  rewrite abortEdit_autoComplete.
  destruct (is_empty (trim (tagText s))); [reflexivity|].
  split; [apply registered_in|].
  intros D HD. apply candidates_in. split; [apply registered_in|].
  now rewrite toLowerCase_titleCase.
Qed.

Lemma abort_registers_title_cased_draft_witness :
  find_prediction (childNodes tag_mango) = None /\
  tagText (abortEdit tag_mango) = "Foo" /\
  In "Mango" (autoComplete (abortEdit tag_mango)) /\
  In "Mango" (candidates (autoComplete (abortEdit tag_mango)) "man").
Proof.
  split; [reflexivity|].
  destruct (abort_registers_title_cased_draft tag_mango eq_refl) as [H1 [H2 H3]].
  split; [exact H1|]. split; [exact H2|]. exact (H3 "man" eq_refl).
Defined.


(** Ghost text counts as typed text for [#abortEdit]: a blank draft with a
    rendered prediction registers the prediction. *)
Example abort_registers_ghost_text :
  let s := input_event [Text " "] (focus_event tag_foo) in
  childNodes s = [Text " "; Prediction "pple"] /\
  JS.trim (draft s) = "" /\
  autoComplete (abortEdit s) = ["Apple"; "Pple"].
Proof. vm_compute. repeat split. Qed.

(** *** Entry *)

(** C8, as the code has it: with editing disabled [#openEdit] returns at
    once, so [edit()] changes nothing at all and a focus only gives the
    element the focus and adds the three listeners; with editing enabled
    nothing stops [#openEdit], session or not: the element is editable and
    the snapshot is the trimmed text the tag shows. *)
Theorem entry_guard (s : PillTag) :
  if editable s
  then originalText (edit s) = JS.trim (tagText s) /\
       contenteditable (edit s) = true
  else edit s = s /\
       (forall on_focus, openEdit_with on_focus s = s) /\
       focus_listener s = with_listeners s (listeners s ++ [false])%list /\
       focus_event s =
         if focused s then s
         else with_listeners (with_focused s true) (listeners s ++ [false])%list.
Proof.
  destruct (editable s) eqn:He.
  - split; [now apply openEdit_originalText|].
    unfold edit. destruct (focused s) eqn:Hf.
    + unfold openEdit. now rewrite openEdit_with_focused.
    + now rewrite openEdit_unfocused.
  - unfold edit, openEdit, focus_event, tagText_focus, focus_listener, openEdit_with.
    rewrite He. fields. rewrite He. repeat split.
Qed.

Example entry_disabled_on_sample :
  edit tag_locked = tag_locked /\
  focus_event tag_locked =
    with_listeners (with_focused tag_locked true) [false].
Proof. split; reflexivity. Qed.

Lemma entry_during_session_takes_snapshot :
  contenteditable tag_bar = true /\
  originalText tag_bar = "Foo" /\
  originalText (edit tag_bar) = "Bar" /\
  ~ entry_is_noop tag_bar.
Proof.
  split; [reflexivity|]. split; [reflexivity|]. split; [reflexivity|].
  intros H. specialize (H (or_intror eq_refl)).
  apply (f_equal originalText) in H. vm_compute in H. discriminate.
Qed.

(** *** The setters *)

(** C9: a value that is not an array, assigned to [autoComplete], and a
    value that is not a string, assigned to [textContent], leave the
    instance as it was but for one more message on the console; the setters
    have no path that raises. *)
Theorem invalid_assignment_is_logged_and_ignored (va vs : value) (s : PillTag) :
  isArray va = false ->
  isString vs = false ->
  set_autoComplete va s =
    with_console s (console s ++ ["auto-complete must be an array"])%list /\
  set_textContent vs s =
    with_console s (console s ++ ["textContent must be a string"])%list /\
  get_autoComplete (set_autoComplete va s) = get_autoComplete s /\
  get_textContent (set_textContent vs s) = get_textContent s /\
  tagText (set_textContent vs s) = tagText s.
Proof.
  intros Ha Hs.
  destruct va; try discriminate; destruct vs; try discriminate; repeat split.
Qed.

Lemma invalid_assignment_is_logged_and_ignored_witness :
  console (set_autoComplete (VString "Apple") tag_foo) = ["auto-complete must be an array"] /\
  console (set_textContent (VNumber 7) tag_foo) = ["textContent must be a string"] /\
  autoComplete (set_autoComplete (VString "Apple") tag_foo) = ["Apple"] /\
  originalText (set_textContent (VNumber 7) tag_foo) = "Foo".
Proof.
  destruct (invalid_assignment_is_logged_and_ignored (VString "Apple") (VNumber 7) tag_foo
              eq_refl eq_refl) as (H1 & H2 & H3 & H4 & _).
  split; [now rewrite H1|]. split; [now rewrite H2|].
  split; [exact H3|exact H4].
Defined.

(** *** The getter *)

Lemma other_key_ignored s : fst (keydown_event OtherKey s) = s.
Proof.
  rewrite keydown_event_fst.
  generalize (seq 0 (length (listeners s))) as l. generalize s as st.
  intros st l. revert st. induction l; intros st; simpl; auto.
Qed.

Lemma typing_keeps_frame s st : typing s st -> typing_frame s st.
Proof.
  induction 1 as [|st ns _ IH|st st' _ IH Hc|st _ IH].
  - apply typing_frame_refl.
  - eapply typing_frame_trans; [exact IH|apply input_event_frame].
  - eapply typing_frame_trans; [exact IH|now apply confirmPrediction_frame].
  - now rewrite other_key_ignored.
Qed.

Lemma set_textContent_originalText x s :
  originalText (set_textContent (VString x) s) = trim x.
Proof. reflexivity. Qed.

(** C10, as the code has it: the getter returns [originalText]. In a
    session entered from [s] it is the trimmed value [s] showed, whatever
    was typed or accepted since; after a confirm it is the confirmed value,
    after an abort still the value [s] showed, after an assignment of a
    string the trimmed string. *)
Theorem getter_returns_snapshot (s st : PillTag) (x : string) :
  editable s = true ->
  typing (openEdit s) st ->
  get_textContent st = originalText st /\
  get_textContent st = JS.trim (tagText s) /\
  get_textContent (abortEdit st) = JS.trim (tagText s) /\
  get_textContent (confirmEdit st) = confirmed_value st /\
  get_textContent (set_textContent (VString x) st) = JS.trim x.
Proof.
  intros He Ht. unfold get_textContent.
  destruct (typing_keeps_frame _ _ Ht) as (Fo & _).
  rewrite openEdit_originalText in Fo by assumption.
  split; [reflexivity|]. split; [assumption|]. split; [|split].
  - now rewrite abortEdit_originalText.
  - now destruct (confirmEdit_settled st) as (_ & Ho & _).
  - apply set_textContent_originalText.
Qed.

Lemma getter_returns_snapshot_witness :
  typing (openEdit tag_foo) tag_bar /\
  draft tag_bar = "Bar" /\
  get_textContent tag_bar = "Foo".
Proof.
  assert (typing (openEdit tag_foo) tag_bar) as T
      by exact (typing_input _ _ [Text "Bar"] (typing_start _)).
  split; [exact T|]. split; [reflexivity|].
  exact (proj1 (proj2 (getter_returns_snapshot tag_foo tag_bar "" eq_refl T))).
Defined.

Lemma getter_returns_draft_after_reentry :
  get_textContent tag_foo = "Foo" /\
  draft (edit tag_bar) = "Bar" /\
  get_textContent (edit tag_bar) = "Bar" /\
  ~ getter_keeps_value_of tag_foo (edit tag_bar).
Proof.
  split; [reflexivity|]. split; [reflexivity|]. split; [reflexivity|].
  intros H. specialize (H eq_refl). vm_compute in H. discriminate.
Qed.

(** ** The states the component reaches *)

Lemma shows_original_same s s' :
  originalText s' = originalText s -> childNodes s' = childNodes s ->
  contenteditable s' = contenteditable s ->
  shows_original s -> shows_original s'.
Proof. unfold shows_original. intros -> -> ->. trivial. Qed.

Lemma shows_original_settled v E s :
  trim v = v -> settled v E s -> shows_original s.
Proof. intros Hv (Hc & Ho & _). unfold shows_original. rewrite Ho, Hc. auto. Qed.

Lemma abortEdit_shows_original s : shows_original s -> shows_original (abortEdit s).
Proof.
  intros [H _]. rewrite abortEdit_unfold. unfold shows_original. fields. auto.
Qed.

Lemma opened_shows_original s : shows_original (opened s).
Proof.
  unfold shows_original, opened. fields. split; [apply trim_idem|discriminate].
Qed.

Lemma edit_shows_original s : shows_original s -> shows_original (edit s).
Proof.
  intros H. unfold edit. destruct (editable s) eqn:He.
  - destruct (focused s) eqn:Hf.
    + unfold openEdit. rewrite openEdit_with_focused by assumption.
      apply opened_shows_original.
    + rewrite openEdit_unfocused by assumption.
      eapply shows_original_same; [| | |apply opened_shows_original]; reflexivity.
  - unfold openEdit, openEdit_with. now rewrite He.
Qed.

Lemma focus_event_shows_original s : shows_original s -> shows_original (focus_event s).
Proof.
  intros H. unfold focus_event, tagText_focus.
  destruct (focused s) eqn:Hf; [assumption|].
  destruct (editable s) eqn:He.
  - rewrite focus_listener_editable by (fields; first [assumption|reflexivity]).
    eapply shows_original_same; [| | |apply opened_shows_original]; reflexivity.
  - unfold focus_listener, openEdit_with. fields. rewrite He. fields.
    eapply shows_original_same; [| | |exact H]; reflexivity.
Qed.

Lemma blur_event_shows_original s : shows_original s -> shows_original (blur_event s).
Proof.
  intros H. unfold blur_event, tagText_blur.
  destruct (focused s); [|assumption].
  apply each_listener_ind.
  - eapply shows_original_same; [| | |exact H]; reflexivity.
  - intros i st Hst. unfold blur_listener.
    destruct (nth i (listeners st) false); [assumption|].
    now apply abortEdit_shows_original.
Qed.

Lemma confirm_guarded_shows_original i s : shows_original (confirm_guarded i s).
Proof.
  unfold confirm_guarded, setTimeout_reset.
  eapply shows_original_same; [| | |
    eapply shows_original_settled;
      [apply trim_confirmed_value|apply confirmEdit_settled]]; reflexivity.
Qed.

Lemma keydown_listener_shows_original k i s :
  shows_original s -> shows_original (fst (keydown_listener k i s)).
Proof.
  intros H. destruct k; cbn [keydown_listener fst].
  - apply confirm_guarded_shows_original.
  - now apply abortEdit_shows_original.
  - destruct (find_prediction (childNodes s)) eqn:P; cbn [fst];
      [|apply confirm_guarded_shows_original].
    destruct (confirmPrediction s) as [s'|] eqn:C; [|assumption].
    destruct (confirmPrediction_frame s s' C) as (Fo & _ & _ & _ & _ & _ & Fc & _).
    destruct H as [H1 H2]. split; [now rewrite Fo|].
    rewrite Fc. intros Hc. rewrite (H2 Hc), find_prediction_text_nodes in P.
    discriminate.
  - assumption.
Qed.

Lemma keydown_event_shows_original k s :
  shows_original s -> shows_original (fst (keydown_event k s)).
Proof.
  rewrite keydown_event_fst.
  generalize (seq 0 (length (listeners s))) as l. generalize s as st.
  intros st l. revert st.
  induction l as [|i l IH]; intros st H; simpl; [assumption|].
  now apply IH, keydown_listener_shows_original.
Qed.

Lemma run_timers_shows_original s : shows_original s -> shows_original (run_timers s).
Proof.
  intros H. unfold run_timers.
  apply shows_original_same with
      (s := fold_left (fun st i => set_justConfirmed i false st) (timers s) s);
    try reflexivity.
  generalize (timers s) as l. revert H. generalize s as st.
  intros st H l. revert st H.
  induction l as [|i l IH]; intros st H; simpl; [assumption|].
  apply IH. eapply shows_original_same; [| | |exact H]; reflexivity.
Qed.

Lemma step_shows_original s s' : step s s' -> shows_original s -> shows_original s'.
Proof.
  intros St H. destruct St as [e r|v|v|v|v|v| | | |k|ns Hc| ].
  - exact H.
  - destruct v; exact H.
  - destruct v; exact H.
  - destruct v; exact H.
  - destruct v; try exact H.
    unfold shows_original, set_textContent. fields. split; [apply trim_idem|auto].
  - destruct v; exact H.
  - now apply edit_shows_original.
  - now apply focus_event_shows_original.
  - now apply blur_event_shows_original.
  - now apply keydown_event_shows_original.
  - destruct (input_event_frame ns s) as (Fo & _ & _ & _ & _ & _ & Fc & _).
    destruct H as [H1 _]. split; [now rewrite Fo|].
    rewrite Fc, Hc. discriminate.
  - now apply run_timers_shows_original.
Qed.

Lemma construct_shows_original hostText attr : shows_original (construct hostText attr).
Proof. split; [apply trim_idem|reflexivity]. Qed.

Lemma reachable_shows_original s : reachable s -> shows_original s.
Proof.
  induction 1 as [hostText attr|s s' R IH St].
  - apply construct_shows_original.
  - now apply (step_shows_original s s').
Qed.

(** Every state the component reaches out of a session shows a trimmed
    value, the one the getter returns. *)
Theorem reachable_idle_value s :
  reachable s -> contenteditable s = false ->
  tagText s = get_textContent s /\ trim (tagText s) = tagText s.
Proof.
  intros R Hc. destruct (reachable_shows_original s R) as [H1 H2].
  unfold get_textContent, tagText.
  rewrite (H2 Hc), textContent_text_nodes. auto.
Qed.

(** * Further properties of the code *)

(** ** Title case *)

Module TitleCase.

Ltac by_cases c := destruct c as [[] [] [] [] [] [] [] []]; vm_compute; congruence.

Lemma is_space_upper c : is_space (upper_char c) = is_space c.
Proof. by_cases c. Qed.

Lemma is_word_upper c : is_word (upper_char c) = is_word c.
Proof. by_cases c. Qed.

Lemma is_word_lower c : is_word (lower_char c) = is_word c.
Proof. by_cases c. Qed.

Lemma upper_upper c : upper_char (upper_char c) = upper_char c.
Proof. by_cases c. Qed.

Lemma upper_lower c : upper_char (lower_char c) = upper_char c.
Proof. by_cases c. Qed.

Lemma lower_not_word c : is_word c = false -> lower_char c = c.
Proof. by_cases c. Qed.

Lemma word_not_space c : is_word c = true -> is_space c = false.
Proof. by_cases c. Qed.

Lemma replace_words_scan s :
  (forall c0 m0,
      replace_words capitalize (Some (String c0 m0)) s =
      String (upper_char c0) (toLowerCase m0 ++ title_scan true s)) /\
  replace_words capitalize None s = title_scan false s.
Proof.
  induction s as [|c r [IH1 IH2]]; split; intros; simpl.
  - unfold capitalize, charAt, substr. simpl. now rewrite append_nil_r.
  - reflexivity.
  - destruct (is_space c).
    + rewrite IH2. unfold capitalize, charAt, substr. simpl. reflexivity.
    + change (String c0 m0 ++ String c "") with (String c0 (m0 ++ String c "")).
      rewrite IH1. unfold toLowerCase. rewrite map_chars_append. simpl.
      now rewrite append_assoc.
  - destruct (is_word c); [|now rewrite IH2].
    now rewrite IH1.
Qed.

Lemma titleCase_scan s : titleCase s = title_scan false s.
Proof. apply replace_words_scan. Qed.

Lemma title_scan_idem s : forall b, title_scan b (title_scan b s) = title_scan b s.
Proof.
  induction s as [|c r IH]; intros b; simpl; [reflexivity|].
  destruct b.
  - destruct (is_space c) eqn:E; simpl.
    + now rewrite E, IH.
    + now rewrite is_space_lower_char, E, lower_lower_char, IH.
  - destruct (is_word c) eqn:E; simpl.
    + now rewrite is_word_upper, E, upper_upper, IH.
    + now rewrite E, IH.
Qed.

Lemma title_scan_lower s : forall b, title_scan b (toLowerCase s) = title_scan b s.
Proof.
  unfold toLowerCase.
  induction s as [|c r IH]; intros b; simpl; [reflexivity|].
  destruct b.
  - rewrite is_space_lower_char, lower_lower_char, !IH. 
    destruct (is_space c) eqn:E; [|reflexivity].
    f_equal. destruct (is_word c) eqn:W.
    + apply word_not_space in W. congruence.
    + now apply lower_not_word.
  - rewrite is_word_lower, upper_lower, !IH.
    destruct (is_word c) eqn:W; [reflexivity|].
    f_equal. now apply lower_not_word.
Qed.

Lemma title_scan_length s : forall b, String.length (title_scan b s) = String.length s.
Proof.
  induction s as [|c r IH]; intros b; simpl; [reflexivity|].
  destruct b; [destruct (is_space c)|destruct (is_word c)]; simpl; now rewrite IH.
Qed.

Lemma titleCase_idem s : titleCase (titleCase s) = titleCase s.
Proof. rewrite !titleCase_scan. apply title_scan_idem. Qed.

Lemma titleCase_toLowerCase s : titleCase (toLowerCase s) = titleCase s.
Proof. rewrite !titleCase_scan. apply title_scan_lower. Qed.

Lemma titleCase_same_lower a b :
  toLowerCase a = toLowerCase b -> titleCase a = titleCase b.
Proof.
  intros H. now rewrite <- (titleCase_toLowerCase a), H, titleCase_toLowerCase.
Qed.

Lemma toLowerCase_toUpperCase s : toLowerCase (toUpperCase s) = toLowerCase s.
Proof.
  unfold toLowerCase, toUpperCase.
  induction s; simpl; [reflexivity|]. now rewrite lower_upper_char, IHs.
Qed.

Lemma code_lower_char c : ((code (lower_char c) <? 128) = (code c <? 128))%N.
Proof. by_cases c. Qed.

Lemma code_upper_char c : ((code (upper_char c) <? 128) = (code c <? 128))%N.
Proof. by_cases c. Qed.

Lemma ascii_only_toLowerCase s : ascii_only (toLowerCase s) = ascii_only s.
Proof.
  unfold toLowerCase. induction s as [|c r IH]; simpl; [reflexivity|].
  now rewrite code_lower_char, IH.
Qed.

Lemma ascii_only_title_scan s : forall b, ascii_only (title_scan b s) = ascii_only s.
Proof.
  induction s as [|c r IH]; intros b; simpl; [reflexivity|].
  destruct b; [destruct (is_space c)|destruct (is_word c)]; simpl;
    now rewrite ?code_lower_char, ?code_upper_char, IH.
Qed.

Lemma ascii_only_titleCase s : ascii_only (titleCase s) = ascii_only s.
Proof. rewrite titleCase_scan. apply ascii_only_title_scan. Qed.

Lemma ascii_only_slice n : forall s, ascii_only s = true -> ascii_only (slice n s) = true.
Proof.
  induction n as [|n IH]; intros [|c r]; simpl; auto.
  intros H. apply andb_prop in H. now apply IH.
Qed.

End TitleCase.

Import TitleCase.

(** X1: the normalisation of [#confirmEdit] and of [addAutoComplete] is
    a fixed point on its own results: title-casing a title-cased string, and
    normalising a confirmed value once more, change nothing. *)
Theorem titleCase_idempotent (s : string) :
  titleCase (titleCase s) = titleCase s /\
  titleCase (trim (titleCase (trim s))) = titleCase (trim s).
Proof.
  split; [apply titleCase_idem|].
  now rewrite trim_titleCase_trim, titleCase_idem.
Qed.

(** X2: on strings of ASCII characters, where the case mappings of the
    model are those of ECMAScript, title-casing changes the case of letters
    only (same length, same lower-case form, ASCII again) and its result
    does not depend on the case of its input. *)
Theorem titleCase_changes_case_only (s : string) :
  ascii_only s = true ->
  toLowerCase (titleCase s) = toLowerCase s /\
  String.length (titleCase s) = String.length s /\
  titleCase (toLowerCase s) = titleCase s /\
  titleCase (toUpperCase s) = titleCase s /\
  ascii_only (titleCase s) = true.
Proof.
  intros H.
  split; [apply toLowerCase_titleCase|].
  split; [rewrite titleCase_scan; apply title_scan_length|].
  split; [apply titleCase_toLowerCase|].
  split; [apply titleCase_same_lower, toLowerCase_toUpperCase|].
  now rewrite ascii_only_titleCase.
Qed.

Lemma titleCase_changes_case_only_witness :
  titleCase "hello wORLD" = "Hello World" /\
  toLowerCase (titleCase "hello wORLD") = toLowerCase "hello wORLD" /\
  titleCase (toUpperCase "hello wORLD") = titleCase "hello wORLD".
Proof.
  destruct (titleCase_changes_case_only "hello wORLD" eq_refl) as (H1 & _ & _ & H2 & _).
  split; [reflexivity|]. split; [exact H1|exact H2].
Defined.

(** *** Suggestions *)

Lemma mem_cons y x l : mem y (x :: l) = (y =? x) || mem y l.
Proof. reflexivity. Qed.

Lemma dedupe_from_snoc l y :
  forall seen,
    dedupe_from seen (l ++ [y]) =
    (dedupe_from seen l ++ if mem y seen || mem y l then [] else [y])%list.
Proof.
  induction l as [|x r IH]; intros seen; simpl.
  - rewrite orb_false_r. now destruct (mem y seen).
  - destruct (mem x seen) eqn:E.
    + rewrite IH. destruct (y =? x) eqn:Eyx.
      * apply String.eqb_eq in Eyx. subst. rewrite E. reflexivity.
      * reflexivity.
    + simpl. rewrite IH, mem_cons. f_equal.
      destruct (y =? x), (mem y seen); reflexivity.
Qed.

Lemma dedupe_snoc l y :
  dedupe (l ++ [y]) = (dedupe l ++ if mem y l then [] else [y])%list.
Proof. unfold dedupe. now rewrite dedupe_from_snoc. Qed.

Lemma dedupe_from_nodup_fixed l :
  forall seen, NoDup l -> (forall x, In x l -> ~ In x seen) -> dedupe_from seen l = l.
Proof.
  induction l as [|y r IH]; intros seen ND D; simpl; [reflexivity|].
  inversion ND; subst.
  destruct (mem y seen) eqn:E.
  - apply mem_in in E. exfalso. apply (D y); simpl; auto.
  - f_equal. apply IH; [assumption|].
    intros x Hx [->|Hs]; [contradiction|]. apply (D x); simpl; auto.
Qed.

Lemma dedupe_nodup_fixed l : NoDup l -> dedupe l = l.
Proof. intros H. apply dedupe_from_nodup_fixed; [assumption|]. intros x _ []. Qed.

Lemma dedupe_idem l : dedupe (dedupe l) = dedupe l.
Proof. apply dedupe_nodup_fixed, dedupe_nodup. Qed.

Lemma registered_formula l v :
  registered l v =
  (dedupe l ++ if mem (titleCase v) l then [] else [titleCase v])%list.
Proof. apply dedupe_snoc. Qed.

Lemma registered_again l v w :
  titleCase w = titleCase v -> registered (registered l v) w = registered l v.
Proof.
  intros E. unfold registered at 1. rewrite E, dedupe_snoc.
  assert (mem (titleCase v) (registered l v) = true) as ->
      by apply mem_in, registered_in.
  rewrite app_nil_r. unfold registered. apply dedupe_idem.
Qed.

Lemma addAutoComplete_unfold x s :
  addAutoComplete (VString x) s =
  with_autoCompleteAttr
    (with_autoComplete s (registered (autoComplete s) x))
    (Some (registered (autoComplete s) x)).
Proof. reflexivity. Qed.

(** X3: after [addAutoComplete] of a string the suggestion list is the
    old list without its repeated entries, followed by the title-cased
    string when that was not in the list; it has no duplicates, holds the
    old suggestions and the new one and nothing else, the [auto-complete]
    attribute mirrors it, and nothing else in the instance has changed. *)
Theorem addAutoComplete_registers (x : string) (s : PillTag) :
  let l := autoComplete s in
  let t := titleCase x in
  let s' := addAutoComplete (VString x) s in
  autoComplete s' = (dedupe l ++ if mem t l then [] else [t])%list /\
  NoDup (autoComplete s') /\
  (forall y, In y (autoComplete s') <-> In y l \/ y = t) /\
  autoCompleteAttr s' = Some (autoComplete s') /\
  s' = with_autoCompleteAttr (with_autoComplete s (autoComplete s'))
                             (Some (autoComplete s')).
Proof.
  intros l t s'. subst s'. rewrite addAutoComplete_unfold. fields. fold l.
  split; [apply registered_formula|].
  split; [apply dedupe_nodup|]. split; [|split; reflexivity].
  intros y. unfold registered. rewrite dedupe_in, in_app_iff. simpl.
  intuition.
Qed.

(** X4: on a suggestion list without duplicates [addAutoComplete] keeps
    the order: a known value leaves the list as it is, a new one goes to
    the end. *)
Theorem addAutoComplete_keeps_order (x : string) (s : PillTag) :
  NoDup (autoComplete s) ->
  autoComplete (addAutoComplete (VString x) s) =
  if mem (titleCase x) (autoComplete s) then autoComplete s
  else (autoComplete s ++ [titleCase x])%list.
Proof.
  intros ND. rewrite addAutoComplete_unfold. fields.
  rewrite registered_formula, (dedupe_nodup_fixed _ ND).
  destruct (mem (titleCase x) (autoComplete s)); [apply app_nil_r|reflexivity].
Qed.

Lemma addAutoComplete_keeps_order_witness :
  NoDup (autoComplete tag_foo) /\
  autoComplete (addAutoComplete (VString "banana split") tag_foo) = ["Apple"; "Banana Split"] /\
  autoComplete (addAutoComplete (VString "aPPLE") tag_foo) = ["Apple"].
Proof.
  assert (NoDup (autoComplete tag_foo)) as ND
      by (repeat constructor; simpl; intuition discriminate).
  split; [exact ND|]. split.
  - exact (addAutoComplete_keeps_order "banana split" tag_foo ND).
  - exact (addAutoComplete_keeps_order "aPPLE" tag_foo ND).
Defined.

(** X5: for strings of ASCII characters, adding a string after one that
    differs from it in letter case only changes nothing: both register the
    same title-cased suggestion. *)
Theorem addAutoComplete_ignores_case (x y : string) (s : PillTag) :
  ascii_only x = true ->
  ascii_only y = true ->
  toLowerCase x = toLowerCase y ->
  addAutoComplete (VString y) (addAutoComplete (VString x) s) =
  addAutoComplete (VString x) s.
Proof.
  intros _ _ E.
  assert (titleCase y = titleCase x) as T
      by (symmetry; now apply titleCase_same_lower).
  rewrite !addAutoComplete_unfold. fields.
  now rewrite (registered_again _ x y T).
Qed.

Lemma addAutoComplete_ignores_case_witness :
  addAutoComplete (VString "MANGO") (addAutoComplete (VString "mango") tag_foo) =
  addAutoComplete (VString "mango") tag_foo.
Proof.
  exact (addAutoComplete_ignores_case "mango" "MANGO" tag_foo eq_refl eq_refl eq_refl).
Defined.

(** *** The value *)

Lemma set_textContent_unfold x s :
  set_textContent (VString x) s =
  with_autoCompleteAttr
    (with_autoComplete
       (with_originalText (with_childNodes s (text_nodes (trim x))) (trim x))
       (registered (autoComplete s) (trim x)))
    (Some (registered (autoComplete s) (trim x))).
Proof.
  unfold set_textContent. rewrite addAutoComplete_unfold. fields.
  now rewrite textContent_text_nodes, trim_idem.
Qed.

(** X6: assigning a string to [textContent] makes the getter and the
    tag show the trimmed string and registers its title-cased form (the
    empty string for a blank value), without any event and without opening
    or closing a session; assigning the value read back changes nothing. *)
Theorem set_textContent_roundtrip (x : string) (s : PillTag) :
  let s' := set_textContent (VString x) s in
  get_textContent s' = trim x /\
  tagText s' = trim x /\
  In (titleCase (trim x)) (autoComplete s') /\
  events s' = events s /\
  contenteditable s' = contenteditable s /\
  set_textContent (VString (get_textContent s')) s' = s'.
Proof.
  intros s'. subst s'. rewrite !set_textContent_unfold. unfold get_textContent, tagText.
  fields. rewrite textContent_text_nodes, trim_idem.
  repeat split; try apply registered_in.
  now rewrite registered_again.
Qed.

Example set_textContent_blank :
  let s' := set_textContent (VString "   ") tag_foo in
  childNodes s' = [] /\ get_textContent s' = "" /\ autoComplete s' = ["Apple"; ""].
Proof. repeat split. Qed.

(** *** More on the prediction *)

Lemma predictEdit_as_children s :
  predictEdit s = with_childNodes s (childNodes (predictEdit s)).
Proof. unfold predictEdit. fields. now destruct (predict _ _). Qed.

Lemma with_childNodes_same s : with_childNodes s (childNodes s) = s.
Proof. now destruct s. Qed.

Lemma predictEdit_idempotent s :
  one_prediction (childNodes s) -> predictEdit (predictEdit s) = predictEdit s.
Proof.
  intros H.
  assert (childNodes (predictEdit (predictEdit s)) = childNodes (predictEdit s)) as C.
  { rewrite (predictEdit_childNodes (predictEdit s)), predictEdit_draft by assumption.
    replace (autoComplete (predictEdit s)) with (autoComplete s)
      by (symmetry; apply predictEdit_frame).
    rewrite (predictEdit_childNodes s).
    rewrite remove_prediction_app_none by exact H.
    destruct (predict (autoComplete s) (draft s)); simpl; now rewrite ?app_nil_r. }
  rewrite (predictEdit_as_children (predictEdit s)), C.
  apply with_childNodes_same.
Qed.

Lemma input_listener_idempotent i j s :
  one_prediction (childNodes s) ->
  input_listener j (input_listener i s) = input_listener i s.
Proof.
  intros H. unfold input_listener.
  assert (forall b, predictEdit (with_labelShown (predictEdit s) b) =
                    with_labelShown (predictEdit s) b) as P.
  { intros b. rewrite <- (predictEdit_idempotent s H) at 2.
    unfold predictEdit. fields. now destruct (predict _ _). }
  destruct (0 <? String.length (tagText (predictEdit s)))%nat eqn:E;
    rewrite P; unfold tagText in *; fields; rewrite E; reflexivity.
Qed.

Lemma input_listener_one_prediction i s :
  one_prediction (childNodes s) -> one_prediction (childNodes (input_listener i s)).
Proof.
  intros H. unfold input_listener.
  destruct (0 <? _)%nat; fields; now apply predictEdit_one_prediction.
Qed.

(** X7: however many input listeners the focus listener has piled up,
    one input event leaves what a single run of [#predictEdit] leaves: the
    children without the old prediction, followed by the new one if there
    is one; the hint is shown exactly when the tag then has no text. *)
Theorem input_runs_one_prediction (ns : list node) (s : PillTag) :
  one_prediction ns ->
  listeners s <> [] ->
  input_event ns s = input_listener 0 (with_childNodes s ns) /\
  childNodes (input_event ns s) =
    (remove_prediction ns ++
     match predict (autoComplete s) (textContent (remove_prediction ns)) with
     | Some g => [Prediction g]
     | None => []
     end)%list /\
  labelShown (input_event ns s) = is_empty (tagText (input_event ns s)).
Proof.
  intros H N.
  assert (input_event ns s = input_listener 0 (with_childNodes s ns)) as E.
  { unfold input_event, each_listener. fields.
    destruct (listeners s) as [|b ls]; [congruence|].
    cbn [length seq fold_left].
    generalize (seq 1 (length ls)) as l.
    induction l as [|i l IH]; simpl; [reflexivity|].
    rewrite input_listener_idempotent; [exact IH|exact H]. }
  rewrite E. split; [reflexivity|]. unfold input_listener.
  split.
  - destruct (0 <? _)%nat; fields; now rewrite predictEdit_childNodes.
  - destruct (tagText (predictEdit (with_childNodes s ns))) eqn:T;
      unfold tagText in *; simpl; fields; rewrite T; reflexivity.
Qed.

Lemma input_runs_one_prediction_witness :
  childNodes (input_event [Text "Ap"]
                (focus_event (run_timers (fst (keydown_event Enter (focus_event tag_foo)))))) =
  [Text "Ap"; Prediction "ple"].
Proof.
  exact (proj1 (proj2 (input_runs_one_prediction [Text "Ap"]
           (focus_event (run_timers (fst (keydown_event Enter (focus_event tag_foo)))))
           eq_refl ltac:(discriminate)))).
Defined.

Lemma slice_map_chars f n : forall s, slice n (map_chars f s) = map_chars f (slice n s).
Proof. induction n; intros [|c r]; simpl; auto. Qed.

Lemma startsWith_slice p : forall s, startsWith s p = true -> p ++ slice (String.length p) s = s.
Proof.
  unfold startsWith. induction p as [|c p IH]; intros s H; [reflexivity|].
  destruct s as [|d s]; simpl in *; [discriminate|].
  destruct (ascii_dec c d) as [->|]; [|discriminate].
  now rewrite IH.
Qed.

Lemma predict_some S T g :
  predict S T = Some g ->
  T <> "" /\ candidates S T <> [] /\
  g = slice (String.length T) (nth 0 (sort (candidates S T)) "").
Proof.
  unfold predict. destruct S as [|x S]; [discriminate|].
  destruct T as [|c T]; [simpl; discriminate|].
  cbn [length String.length Nat.ltb Nat.leb andb].
  destruct (candidates (x :: S) (String c T)) as [|y l] eqn:E; [discriminate|].
  cbn [length Nat.ltb Nat.leb]. intros H. injection H as <-.
  repeat split; discriminate.
Qed.

Lemma predict_matches_suggestion (S : list string) (T g : string) :
  trim T = T ->
  predict S T = Some g ->
  exists m,
    In m S /\
    toLowerCase (T ++ g) = toLowerCase m /\
    String.length (T ++ g) = String.length m /\
    titleCase (T ++ g) = titleCase m.
Proof.
  intros HT HP. destruct (predict_some S T g HP) as (_ & HC & ->).
  destruct (sort_first_least (candidates S T) "" HC) as [Hin _].
  set (m := nth 0 (sort (candidates S T)) "") in *.
  apply candidates_in in Hin. destruct Hin as [HS Hpre]. rewrite HT in Hpre.
  apply startsWith_slice in Hpre.
  unfold toLowerCase in Hpre. rewrite map_chars_length, slice_map_chars in Hpre.
  assert (toLowerCase (T ++ slice (String.length T) m) = toLowerCase m) as HL.
  { unfold toLowerCase. rewrite map_chars_append. exact Hpre. }
  exists m. split; [assumption|]. split; [assumption|]. split.
  - rewrite <- (map_chars_length lower_char (T ++ _)), <- (map_chars_length lower_char m).
    now f_equal.
  - now apply titleCase_same_lower.
Qed.

Lemma predict_ascii S T g :
  Forall (fun x => ascii_only x = true) S -> predict S T = Some g -> ascii_only g = true.
Proof.
  intros HS HP. destruct (predict_some S T g HP) as (_ & HC & ->).
  destruct (sort_first_least (candidates S T) "" HC) as [Hin _].
  apply candidates_in in Hin. destruct Hin as [Hin _].
  rewrite Forall_forall in HS. now apply ascii_only_slice, HS.
Qed.

(** X8: for suggestions and a draft of ASCII characters, the draft
    without white space around it, the draft followed by the ghost text
    equals one of the suggestions up to letter case, so it has its length
    and its title-cased form; the ghost text is ASCII as well. *)
Theorem prediction_completes_to_suggestion (S : list string) (T g : string) :
  Forall (fun x => ascii_only x = true) S ->
  ascii_only T = true ->
  trim T = T ->
  predict S T = Some g ->
  ascii_only g = true /\
  exists m,
    In m S /\
    toLowerCase (T ++ g) = toLowerCase m /\
    String.length (T ++ g) = String.length m /\
    titleCase (T ++ g) = titleCase m.
Proof.
  intros HS _ HT HP. split; [now apply (predict_ascii S T)|].
  now apply predict_matches_suggestion.
Qed.

Lemma prediction_completes_to_suggestion_witness :
  predict ["apple"; "Apricot"; "avocado"] "a" = Some "pricot" /\
  exists m, In m ["apple"; "Apricot"; "avocado"] /\
            toLowerCase ("a" ++ "pricot") = toLowerCase m.
Proof.
  split; [reflexivity|].
  assert (Forall (fun x => ascii_only x = true) ["apple"; "Apricot"; "avocado"]) as HS
      by (repeat constructor).
  destruct (prediction_completes_to_suggestion ["apple"; "Apricot"; "avocado"] "a" "pricot"
              HS eq_refl eq_refl eq_refl) as (_ & m & H1 & H2 & _).
  exists m. split; assumption.
Defined.

(** *** More on the confirm *)

Lemma is_empty_titleCase s : is_empty (titleCase s) = is_empty s.
Proof. symmetry. apply same_spaces_empty, titleCase_same_spaces. Qed.

Lemma confirmed_value_not_empty s : is_empty (confirmed_value s) = false.
Proof.
  unfold confirmed_value. destruct (is_empty (trim (tagText s))) eqn:E; [reflexivity|].
  now rewrite is_empty_titleCase.
Qed.

Lemma titleCase_confirmed_value s : titleCase (confirmed_value s) = confirmed_value s.
Proof.
  unfold confirmed_value. destruct (is_empty (trim (tagText s))); [reflexivity|].
  apply titleCase_idem.
Qed.

Lemma abortEdit_settled_with l v E s :
  trim v = v -> titleCase v = v -> is_empty v = false ->
  settled_with (dedupe (l ++ [v])) v E s ->
  settled_with (dedupe (l ++ [v])) v E (abortEdit s).
Proof.
  intros Ht Hc Hn [HS HA]. split; [now apply abortEdit_settled|].
  rewrite abortEdit_autoComplete.
  destruct HS as (Hch & _). unfold tagText. rewrite Hch, textContent_text_nodes, Ht, Hn, HA.
  assert (dedupe (l ++ [v]) = registered l v) as ->
      by (unfold registered; now rewrite Hc).
  now apply registered_again.
Qed.

Lemma tagText_blur_ind (P : PillTag -> Prop) s :
  P s -> (forall st, P st -> P (with_focused st false)) ->
  (forall st, P st -> P (abortEdit st)) -> P (tagText_blur s).
Proof.
  intros H0 Hf Ha. unfold tagText_blur. destruct (focused s); [|assumption].
  apply each_listener_ind; [now apply Hf|].
  intros i st Hst. unfold blur_listener.
  destruct (nth i (listeners st) false); [assumption|now apply Ha].
Qed.

(** X9: a confirm of a text that is not blank registers the confirmed
    value itself: the suggestion list becomes the old list followed by that
    value, without duplicates, whether or not blur listeners abort after
    the confirm. *)
Theorem confirm_registers_value (s : PillTag) :
  is_empty (trim (tagText s)) = false ->
  autoComplete (confirmEdit s) = dedupe (autoComplete s ++ [confirmed_value s]) /\
  In (confirmed_value s) (autoComplete (confirmEdit s)) /\
  NoDup (autoComplete (confirmEdit s)).
Proof.
  intros Hn.
  assert (settled_with (dedupe (autoComplete s ++ [confirmed_value s]))
            (confirmed_value s) (events s ++ confirm_events s)%list (confirmEdit s)) as [_ HA].
  { pose proof (trim_confirmed_value s) as T.
    pose proof (titleCase_confirmed_value s) as C.
    pose proof (confirmed_value_not_empty s) as N.
    unfold confirmEdit. apply tagText_blur_ind.
    - unfold settled_with, settled, confirm_events.
      unfold confirmed_value in *. unfold tagText in *. rewrite Hn in *.
      destruct (originalText s =? placeholder) eqn:O;
        match goal with
        | |- context [negb (?v =? originalText s)] =>
            destruct (v =? originalText s) eqn:P
        end;
        repeat (fields; rewrite ?textContent_text_nodes, ?T, ?O, ?P);
        unfold registered; rewrite ?C, ?app_nil_r; repeat split; reflexivity.
    - intros st [(H1 & H2 & H3 & H4) H5]. repeat split; assumption.
    - intros st. now apply abortEdit_settled_with. }
  rewrite HA. split; [reflexivity|]. split; [|apply dedupe_nodup].
  apply dedupe_in, in_or_app. right. now left.
Qed.

Lemma confirm_registers_value_witness :
  autoComplete (confirmEdit tag_mango) = ["Apple"; "Mango"].
Proof.
  exact (proj1 (confirm_registers_value tag_mango eq_refl)).
Defined.

Lemma starts_clean_fixed s : trimStart s = s -> starts_clean s = true.
Proof. intros H. rewrite <- H. apply trimStart_clean. Qed.

Lemma trim_append_not_empty T g :
  trim T = T -> T <> "" -> is_empty (trim (T ++ g)) = false.
Proof.
  intros H N. destruct (trim_fixed_parts T H) as [H1 _].
  apply starts_clean_fixed in H1.
  destruct T as [|c r]; [congruence|]. simpl in H1.
  unfold trim. simpl. destruct (is_space c) eqn:E; [discriminate|].
  simpl. now rewrite E.
Qed.

Lemma titleCase_trim_same_lower a b :
  toLowerCase a = toLowerCase b -> titleCase (trim a) = titleCase (trim b).
Proof.
  intros H. apply titleCase_same_lower.
  now rewrite <- !trim_toLowerCase, H.
Qed.

(** X10: for suggestions and a draft of ASCII characters, typing a
    trimmed draft that gets a prediction, accepting it and confirming
    shows, and makes the getter return, the title-cased form of a
    suggestion; the accept itself only joins the draft and the ghost text,
    keeps the session open and emits nothing. *)
Theorem accept_then_confirm (s : PillTag) (T g : string) :
  Forall (fun x => ascii_only x = true) (autoComplete s) ->
  ascii_only T = true ->
  trim T = T ->
  predict (autoComplete s) T = Some g ->
  let typed := predictEdit (with_childNodes s [Text T]) in
  exists accepted m,
    childNodes typed = [Text T; Prediction g] /\
    confirmPrediction typed = Some accepted /\
    tagText accepted = T ++ g /\
    contenteditable accepted = contenteditable s /\
    events accepted = events s /\
    In m (autoComplete s) /\
    tagText (confirmEdit accepted) = titleCase (trim m) /\
    get_textContent (confirmEdit accepted) = titleCase (trim m).
Proof.
  intros _ _ HT HP typed.
  destruct (predict_some _ _ _ HP) as (HN & _).
  assert (childNodes typed = [Text T; Prediction g]) as Hc.
  { subst typed. rewrite predictEdit_childNodes. unfold draft. fields.
    cbn [remove_prediction textContent node_text]. rewrite append_nil_r, HP. reflexivity. }
  destruct (predict_matches_suggestion _ _ _ HT HP) as (m & Hm & HL & _).
  exists (with_selected (set_tagText (T ++ g) typed) CaretAtEnd), m.
  split; [assumption|]. split.
  { unfold confirmPrediction. rewrite Hc. reflexivity. }
  split; [unfold tagText; fields; apply textContent_text_nodes|].
  destruct (predictEdit_frame (with_childNodes s [Text T]))
    as (_ & _ & _ & Fe & _ & _ & Fc & _).
  split; [exact Fc|]. split; [exact Fe|].
  split; [assumption|].
  set (accepted := with_selected (set_tagText (T ++ g) typed) CaretAtEnd).
  assert (confirmed_value accepted = titleCase (trim m)) as Hv.
  { unfold confirmed_value. subst accepted. unfold tagText. fields.
    rewrite textContent_text_nodes, trim_append_not_empty by assumption.
    now apply titleCase_trim_same_lower. }
  destruct (confirmEdit_settled accepted) as (H1 & H2 & _).
  unfold get_textContent, tagText. rewrite H1, H2, textContent_text_nodes. auto.
Qed.

Lemma accept_then_confirm_witness :
  exists accepted,
    confirmPrediction (predictEdit (with_childNodes tag_foo [Text "ap"])) = Some accepted /\
    tagText accepted = "apple" /\
    get_textContent (confirmEdit accepted) = "Apple".
Proof.
  assert (Forall (fun x => ascii_only x = true) (autoComplete tag_foo)) as HS
      by (repeat constructor).
  destruct (accept_then_confirm tag_foo "ap" "ple" HS eq_refl eq_refl eq_refl)
    as (accepted & m & _ & H1 & H2 & _ & _ & Hm & _ & H3).
  exists accepted. split; [exact H1|]. split; [exact H2|].
  simpl in Hm. destruct Hm as [<-|[]]. exact H3.
Defined.

Lemma confirmEdit_unfold s : confirmEdit s = tagText_blur (confirmed s).
Proof.
  unfold confirmEdit, confirmed. f_equal.
  pose proof (trim_confirmed_value s) as T.
  unfold confirm_events, confirmed_value in *. unfold tagText in *.
  destruct (is_empty (trim (textContent (childNodes s)))) eqn:E;
    destruct (originalText s =? placeholder) eqn:O;
    match goal with
    | |- context [negb (?v =? originalText s)] =>
        destruct (v =? originalText s) eqn:P
    end;
    repeat (fields; rewrite ?textContent_text_nodes, ?T, ?O, ?P);
    rewrite ?app_nil_r; reflexivity.
Qed.

Lemma all_true_nth l : Forall (fun b => b = true) l ->
  forall i, i < length l -> nth i l false = true.
Proof.
  induction 1 as [|b l Hb _ IH]; intros i Hi; simpl in *; [lia|].
  destruct i; [assumption|]. apply IH. lia.
Qed.

Lemma blur_listeners_guarded s :
  Forall (fun b => b = true) (listeners s) -> each_listener blur_listener s = s.
Proof.
  intros H. unfold each_listener.
  assert (forall k a st, st = s -> a + k <= length (listeners s) ->
            fold_left (fun st i => blur_listener i st) (seq a k) st = s) as F.
  { induction k as [|k IH]; intros a st -> Hk; simpl; [reflexivity|].
    apply IH; [|lia]. unfold blur_listener.
    rewrite all_true_nth; [reflexivity|assumption|lia]. }
  now apply F.
Qed.

Lemma tagText_blur_guarded s :
  Forall (fun b => b = true) (listeners s) ->
  tagText_blur s = if focused s then with_focused s false else s.
Proof.
  intros H. unfold tagText_blur. destruct (focused s); [|reflexivity].
  now apply blur_listeners_guarded.
Qed.

Lemma enter_with_one_listener s b :
  listeners s = [b] -> fst (keydown_event Enter s) = confirm_guarded 0 s.
Proof. intros H. rewrite keydown_event_fst, H. reflexivity. Qed.

(** X11: with one keydown listener (the first session of a tag) the
    blur that ends [#confirmEdit] is not followed by [#abortEdit]: Enter
    leaves the state the confirm built, without the focus, so a blank
    confirm registers nothing; the guard is up after the key and down again
    after the next turn of the event queue. *)
Theorem blur_guard_first_session (s : PillTag) (b : bool) :
  listeners s = [b] ->
  timers s = [] ->
  let after := fst (keydown_event Enter s) in
  after = setTimeout_reset 0 (with_focused (confirmed (set_justConfirmed 0 true s)) false) /\
  autoComplete after =
    (if is_empty (trim (tagText s)) then autoComplete s
     else registered (autoComplete s) (confirmed_value s)) /\
  focused after = false /\
  listeners after = [true] /\
  listeners (run_timers after) = [false] /\
  timers (run_timers after) = [].
Proof.
  intros Hl Ht after. subst after.
  rewrite (enter_with_one_listener s b Hl). unfold confirm_guarded.
  rewrite confirmEdit_unfold, tagText_blur_guarded.
  2:{ unfold confirmed, set_justConfirmed. fields. rewrite Hl. repeat constructor. }
  assert (with_focused (confirmed (set_justConfirmed 0 true s)) false =
          if focused (confirmed (set_justConfirmed 0 true s))
          then with_focused (confirmed (set_justConfirmed 0 true s)) false
          else confirmed (set_justConfirmed 0 true s)) as <-.
  { unfold confirmed, set_justConfirmed. fields. now destruct (focused s). }
  split; [reflexivity|].
  unfold run_timers, setTimeout_reset, confirmed, set_justConfirmed. fields.
  rewrite Hl, Ht. repeat split.
Qed.

Lemma blur_guard_first_session_witness :
  autoComplete (fst (keydown_event Enter (focus_event tag_new))) = [] /\
  listeners (run_timers (fst (keydown_event Enter (focus_event tag_new)))) = [false].
Proof.
  destruct (blur_guard_first_session (focus_event tag_new) false eq_refl eq_refl)
    as (_ & H1 & _ & _ & H2 & _).
  split; [exact H1|exact H2].
Defined.

(** Without the guard the blur aborts after the confirm: in the second
    session the second listener's blur listener registers the placeholder. *)
Example blur_after_confirm_in_second_session :
  autoComplete
    (fst (keydown_event Enter
            (focus_event (run_timers (fst (keydown_event Enter (focus_event tag_new))))))) =
  ["New Tag"].
Proof. reflexivity. Qed.

Lemma confirm_guarded_settled i s :
  settled (confirmed_value s) (events s ++ confirm_events s)%list (confirm_guarded i s).
Proof.
  unfold confirm_guarded, setTimeout_reset.
  pose proof (confirmEdit_settled (set_justConfirmed i true s)) as H.
  change (confirmed_value (set_justConfirmed i true s)) with (confirmed_value s) in H.
  change (confirm_events (set_justConfirmed i true s)) with (confirm_events s) in H.
  change (events (set_justConfirmed i true s)) with (events s) in H.
  revert H. generalize (confirmEdit (set_justConfirmed i true s)).
  intros st (H1 & H2 & H3 & H4). repeat split; assumption.
Qed.

(** X12: a tag built from blank host text shows nothing and has the
    empty string as value, not the placeholder; its first confirm, whatever
    was typed, emits tag-updated with the empty string as [oldTag], never
    tag-added. *)
Theorem blank_tag_confirm_is_update (hostText : string) (attr : option (list string))
        (hasRemovable : bool) (ns : list node) :
  trim hostText = "" ->
  let s0 := connectedCallback true hasRemovable (construct hostText attr) in
  let session := input_event ns (focus_event s0) in
  let after := fst (keydown_event Enter session) in
  childNodes s0 = [] /\
  get_textContent s0 = "" /\
  events after = [TagUpdated (confirmed_value session) ""] /\
  tagText after = confirmed_value session /\
  get_textContent after = confirmed_value session.
Proof.
  intros H s0 session after.
  assert (childNodes s0 = [] /\ originalText s0 = "") as [Hc Ho].
  { subst s0. unfold construct, connectedCallback. fields. now rewrite H. }
  assert (focus_event s0 = with_listeners (opened (with_focused s0 true)) [false]) as Hf
      by (apply (focus_event_unfocused s0); reflexivity).
  destruct (input_event_frame ns (focus_event s0)) as (Fo & Fl & _ & Fe & _).
  fold session in Fo, Fl, Fe. rewrite Hf in Fo, Fl, Fe.
  unfold opened, tagText in Fo.
  cbn [originalText listeners events childNodes with_listeners with_focused] in Fo, Fl, Fe.
  rewrite Hc in Fo.
  change (originalText session = "") in Fo.
  change (listeners session = [false]) in Fl.
  change (events session = []) in Fe.
  split; [assumption|]. split; [assumption|].
  subst after. rewrite (enter_with_one_listener session false Fl).
  destruct (confirm_guarded_settled 0 session) as (H1 & H2 & _ & H4).
  unfold get_textContent, tagText. rewrite H1, H2, H4, Fe, textContent_text_nodes.
  repeat split. unfold confirm_events. rewrite Fo.
  pose proof (confirmed_value_not_empty session) as N.
  destruct (confirmed_value session); [discriminate|reflexivity].
Qed.

Lemma blank_tag_confirm_is_update_witness :
  events (fst (keydown_event Enter
                 (input_event [Text "kiwi"]
                    (focus_event (connectedCallback true false (construct "  " None)))))) =
  [TagUpdated "Kiwi" ""].
Proof.
  exact (proj1 (proj2 (proj2
           (blank_tag_confirm_is_update "  " None false [Text "kiwi"] eq_refl)))).
Defined.

(** X13: the keydown listener does not look at [editable]: on a tag
    without the attribute a focus opens no session, and Enter still
    confirms the text the tag shows, title-cases it and emits by the rule
    of the confirm. *)
Theorem enter_confirms_without_editable (hostText : string) (attr : option (list string))
        (hasRemovable : bool) :
  is_empty (trim hostText) = false ->
  let s0 := connectedCallback false hasRemovable (construct hostText attr) in
  let v := titleCase (trim hostText) in
  let after := fst (keydown_event Enter (focus_event s0)) in
  contenteditable (focus_event s0) = false /\
  editable after = false /\
  tagText after = v /\
  get_textContent after = v /\
  events after =
    if negb (v =? trim hostText) && negb (trim hostText =? placeholder)
    then [TagUpdated v (trim hostText)]
    else if trim hostText =? placeholder then [TagAdded v] else [].
Proof.
  intros H s0 v after.
  set (f := focus_event s0).
  assert (f = with_listeners (with_focused s0 true) [false]) as Hf by reflexivity.
  assert (listeners f = [false]) as Hl by reflexivity.
  assert (confirmed_value f = v) as Hv.
  { unfold confirmed_value, tagText. rewrite Hf. subst s0 v.
    unfold construct, connectedCallback. fields.
    now rewrite textContent_text_nodes, trim_idem, H. }
  assert (originalText f = trim hostText) as Ho by reflexivity.
  assert (contenteditable f = false) as Hce by reflexivity.
  assert (events f = []) as Hev by reflexivity.
  assert (editable f = false) as Hed by reflexivity.
  subst after. fold f. clearbody f. rewrite (enter_with_one_listener f false Hl).
  destruct (confirm_guarded_settled 0 f) as (H1 & H2 & _ & H4).
  unfold get_textContent, tagText.
  rewrite H1, H2, H4, Hv, textContent_text_nodes.
  split; [assumption|]. split.
  { unfold confirm_guarded, setTimeout_reset. fields.
    rewrite confirmEdit_unfold.
    apply tagText_blur_ind with (P := fun st => editable st = false);
      [exact Hed|auto|intros st Hst; now rewrite abortEdit_unfold]. }
  split; [reflexivity|]. split; [reflexivity|].
  unfold confirm_events. rewrite Hv, Ho, Hev. cbn [app].
  destruct (trim hostText =? placeholder); [|now rewrite app_nil_r].
  now rewrite andb_false_r.
Qed.

Lemma enter_confirms_without_editable_witness :
  let after := fst (keydown_event Enter
                      (focus_event (connectedCallback false false (construct "foo bar" None)))) in
  editable after = false /\ tagText after = "Foo Bar" /\
  events after = [TagUpdated "Foo Bar" "foo bar"].
Proof.
  destruct (enter_confirms_without_editable "foo bar" None false eq_refl)
    as (_ & H1 & H2 & _ & H3).
  split; [exact H1|]. split; [exact H2|exact H3].
Defined.

(** *** Attributes *)

Example camelCase_names :
  camelCase "auto-complete" = "autoComplete" /\
  camelCase "editable" = "editable" /\
  camelCase "removable" = "removable" /\
  camelCase "data--x-y-" = "data-XY-".
Proof. repeat split. Qed.

(** X14: an observed boolean attribute that is removed or set to the
    empty string is decoded as [true]: editing, respectively the remove
    button, is switched on; for [auto-complete] the same text is rejected
    by the setter, with a message and no change of the list. *)
Theorem attribute_without_value_means_true
        (JSON_parse : string -> option value) (s : PillTag) (newValue : option string) :
  JSON_parse "true" = Some (VBool true) ->
  newValue = None \/ newValue = Some "" ->
  editable (attributeChangedCallback JSON_parse EditableAttribute newValue s) = true /\
  removable (attributeChangedCallback JSON_parse RemovableAttribute newValue s) = true /\
  removeButtonShown (attributeChangedCallback JSON_parse RemovableAttribute newValue s) = true /\
  attributeChangedCallback JSON_parse AutoCompleteAttribute newValue s =
    console_error "auto-complete must be an array" s.
Proof.
  intros HP [->| ->]; unfold attributeChangedCallback; simpl; rewrite HP;
    repeat split.
Qed.

Lemma attribute_without_value_means_true_witness :
  editable (attributeChangedCallback parse_literals EditableAttribute None tag_foo) = true /\
  autoComplete (attributeChangedCallback parse_literals AutoCompleteAttribute None tag_foo) =
    ["Apple"].
Proof.
  destruct (attribute_without_value_means_true parse_literals tag_foo None eq_refl
              (or_introl eq_refl)) as (H1 & _ & _ & H2).
  split; [exact H1|]. now rewrite H2.
Defined.

(** X15: [connectedCallback] takes both flags from the presence of the
    attributes and does not touch the remove button: after
    [editable = b1; removable = b2] on an element without the attributes,
    connecting it leaves editing off (so [edit()] does nothing and a focus
    opens no session) and the button as [b2] set it. *)
Theorem connectedCallback_overrides_setters (s : PillTag) (hasRemovable b1 b2 : bool) :
  let s' := connectedCallback false hasRemovable
              (set_removable (VBool b2) (set_editable (VBool b1) s)) in
  editable s' = false /\
  removable s' = hasRemovable /\
  removeButtonShown s' = b2 /\
  edit s' = s' /\
  contenteditable (focus_event s') = contenteditable s /\
  tagText (focus_event s') = tagText s.
Proof.
  intros s'. subst s'.
  unfold edit, openEdit, focus_event, tagText_focus, focus_listener, openEdit_with.
  unfold connectedCallback, set_removable, set_editable. fields.
  destruct (focused s); repeat split.
Qed.

Lemma sound_same s s' :
  originalText s' = originalText s -> childNodes s' = childNodes s ->
  contenteditable s' = contenteditable s -> labelShown s' = labelShown s ->
  events s' = events s -> sound s -> sound s'.
Proof. unfold sound, shows_original, tidy. intros -> -> -> -> ->. trivial. Qed.

Lemma sound_in_session s s' :
  originalText s' = originalText s -> contenteditable s' = true ->
  events s' = events s -> sound s -> sound s'.
Proof.
  unfold sound, shows_original, tidy. intros -> -> ->.
  intros [[H1 _] [_ H3]]. repeat split; try assumption; discriminate.
Qed.

Lemma keydown_event_ind (P : PillTag -> Prop) k s :
  P s -> (forall i st, P st -> P (fst (keydown_listener k i st))) ->
  P (fst (keydown_event k s)).
Proof.
  intros H0 Hstep. rewrite keydown_event_fst.
  generalize (seq 0 (length (listeners s))) as l. revert H0. generalize s as st.
  intros st H0 l. revert st H0.
  induction l as [|i l IH]; intros st H0; simpl; [assumption|].
  now apply IH, Hstep.
Qed.

Lemma run_timers_ind (P : PillTag -> Prop) s :
  P s -> (forall i b st, P st -> P (set_justConfirmed i b st)) ->
  (forall st, P st -> P (with_timers st [])) -> P (run_timers s).
Proof.
  intros H0 Hs Ht. unfold run_timers. apply Ht.
  generalize (timers s) as l. revert H0. generalize s as st.
  intros st H0 l. revert st H0.
  induction l as [|i l IH]; intros st H0; simpl; [assumption|].
  now apply IH, Hs.
Qed.

Lemma confirm_events_ok s :
  trim (originalText s) = originalText s -> Forall event_ok (confirm_events s).
Proof.
  intros Ho. unfold confirm_events.
  pose proof (trim_confirmed_value s) as T.
  pose proof (titleCase_confirmed_value s) as C.
  assert (confirmed_value s <> "") as N.
  { pose proof (confirmed_value_not_empty s) as N. intros E. now rewrite E in N. }
  destruct (confirmed_value s =? originalText s) eqn:E1;
    destruct (originalText s =? placeholder) eqn:E2; simpl;
    repeat constructor; try assumption.
  - now apply String.eqb_neq.
  - now apply String.eqb_neq.
Qed.

Lemma abortEdit_sound s : sound s -> sound (abortEdit s).
Proof.
  intros [HA [_ HE]]. split; [now apply abortEdit_shows_original|].
  rewrite abortEdit_unfold. split; [reflexivity|exact HE].
Qed.

Lemma confirmEdit_sound s : sound s -> sound (confirmEdit s).
Proof.
  intros [[Ho _] [_ HE]]. rewrite confirmEdit_unfold.
  apply tagText_blur_ind.
  - unfold sound, shows_original, tidy, confirmed. fields.
    repeat split; [apply trim_confirmed_value|].
    apply Forall_app. split; [assumption|now apply confirm_events_ok].
  - intros st. now apply sound_same.
  - apply abortEdit_sound.
Qed.

Lemma confirm_guarded_sound i s : sound s -> sound (confirm_guarded i s).
Proof.
  intros H. unfold confirm_guarded, setTimeout_reset.
  assert (sound (confirmEdit (set_justConfirmed i true s))) as H'.
  { apply confirmEdit_sound. revert H. now apply sound_same. }
  revert H'. generalize (confirmEdit (set_justConfirmed i true s)).
  intros st H'. revert H'. now apply sound_same.
Qed.

Lemma keydown_listener_sound k i s : sound s -> sound (fst (keydown_listener k i s)).
Proof.
  intros H. destruct k; cbn [keydown_listener fst].
  - now apply confirm_guarded_sound.
  - now apply abortEdit_sound.
  - destruct (find_prediction (childNodes s)) eqn:P; cbn [fst];
      [|now apply confirm_guarded_sound].
    destruct (confirmPrediction s) as [s'|] eqn:C; [|assumption].
    destruct (confirmPrediction_frame s s' C) as (Fo & _ & _ & Fe & _ & _ & Fc & _).
    apply sound_in_session with (s := s); try assumption.
    rewrite Fc. destruct (contenteditable s) eqn:E; [reflexivity|].
    destruct H as [[_ H2] _]. rewrite (H2 E), find_prediction_text_nodes in P.
    discriminate.
  - assumption.
Qed.

Lemma opened_sound s : sound s -> sound (opened s).
Proof.
  intros [_ [_ HE]]. split; [apply opened_shows_original|].
  split; [discriminate|exact HE].
Qed.

Lemma edit_sound s : sound s -> sound (edit s).
Proof.
  intros H. unfold edit. destruct (editable s) eqn:He.
  - destruct (focused s) eqn:Hf.
    + unfold openEdit. rewrite openEdit_with_focused by assumption.
      now apply opened_sound.
    + rewrite openEdit_unfocused by assumption.
      apply sound_same with (s := opened (with_focused s true)); try reflexivity.
      apply opened_sound. revert H. now apply sound_same.
  - unfold openEdit, openEdit_with. now rewrite He.
Qed.

Lemma focus_event_sound s : sound s -> sound (focus_event s).
Proof.
  intros H. unfold focus_event, tagText_focus.
  destruct (focused s) eqn:Hf; [assumption|].
  destruct (editable s) eqn:He.
  - rewrite focus_listener_editable by (fields; first [assumption|reflexivity]).
    apply sound_same with (s := opened (with_focused s true)); try reflexivity.
    apply opened_sound. revert H. now apply sound_same.
  - unfold focus_listener, openEdit_with. fields. rewrite He. fields.
    revert H. now apply sound_same.
Qed.

Lemma step_sound s s' : step s s' -> sound s -> sound s'.
Proof.
  intros St H. destruct St as [e r|v|v|v|v|v| | | |k|ns Hc| ].
  - exact H.
  - destruct v; exact H.
  - destruct v; exact H.
  - destruct v; exact H.
  - destruct v; try exact H.
    destruct H as [_ HT]. split; [|exact HT].
    unfold shows_original, set_textContent. fields. split; [apply trim_idem|auto].
  - destruct v; exact H.
  - now apply edit_sound.
  - now apply focus_event_sound.
  - unfold blur_event. apply tagText_blur_ind; [assumption| |apply abortEdit_sound].
    intros st. now apply sound_same.
  - apply keydown_event_ind; [assumption|]. intros i st. apply keydown_listener_sound.
  - destruct (input_event_frame ns s) as (Fo & _ & _ & Fe & _ & _ & Fc & _).
    apply sound_in_session with (s := s); try assumption. now rewrite Fc.
  - apply run_timers_ind; [assumption| |]; intros; now apply sound_same with (s := st).
Qed.

Lemma tagText_click_sound s : sound s -> sound (tagText_click s).
Proof.
  intros H. unfold tagText_click. destruct (editable s); cbn [negb]; [assumption|].
  destruct H as [HA [HL HE]]. split; [exact HA|]. split; [exact HL|].
  unfold emit. fields. apply Forall_app. split; [assumption|].
  repeat constructor. apply trim_idem.
Qed.

Lemma attributeChangedCallback_sound parse a newValue s :
  sound s -> sound (attributeChangedCallback parse a newValue s).
Proof.
  intros H. unfold attributeChangedCallback.
  destruct (parse _) as [v|]; [|assumption].
  destruct a; simpl; destruct v; exact H.
Qed.

Lemma visited_sound parse s : visited parse s -> sound s.
Proof.
  induction 1 as [hostText attr|s s' _ IH St|s _ IH|s a newValue _ IH].
  - split; [apply construct_shows_original|]. split; [reflexivity|constructor].
  - now apply (step_sound s s').
  - now apply tagText_click_sound.
  - now apply attributeChangedCallback_sound.
Qed.

(** X16: along any run from the constructor (calls of the methods and
    setters, events, clicks, attribute changes) the value the getter
    returns has no white space around it. *)
Theorem value_is_always_trimmed (JSON_parse : string -> option value) (s : PillTag) :
  visited JSON_parse s ->
  trim (get_textContent s) = get_textContent s.
Proof. intros V. now destruct (visited_sound _ _ V) as [[H _] _]. Qed.

(** X17: along any run, a tag that is not in a session shows exactly
    the value the getter returns, as one text node or none, with no ghost
    text and with the hint hidden. *)
Theorem idle_tag_is_clean (JSON_parse : string -> option value) (s : PillTag) :
  visited JSON_parse s ->
  contenteditable s = false ->
  tagText s = get_textContent s /\
  childNodes s = text_nodes (get_textContent s) /\
  find_prediction (childNodes s) = None /\
  labelShown s = false.
Proof.
  intros V Hc. destruct (visited_sound _ _ V) as [[_ H2] [H3 _]].
  unfold get_textContent, tagText. rewrite (H2 Hc), textContent_text_nodes.
  repeat split; [apply find_prediction_text_nodes|auto].
Qed.

(** X18: along any run every event sent carries trimmed text; the
    [newTag] of tag-updated and of tag-added is title-cased and not empty;
    tag-updated has a [newTag] different from its [oldTag] and an [oldTag]
    that is not the placeholder. *)
Theorem events_are_well_formed (JSON_parse : string -> option value) (s : PillTag) :
  visited JSON_parse s ->
  forall e, In e (events s) ->
    match e with
    | TagUpdated n o =>
        trim n = n /\ titleCase n = n /\ n <> "" /\ n <> o /\
        o <> placeholder /\ trim o = o
    | TagAdded n => trim n = n /\ titleCase n = n /\ n <> ""
    | TagClicked t => trim t = t
    | TagRemoved t => trim t = t
    end.
Proof.
  intros V e He. destruct (visited_sound _ _ V) as [_ [_ HE]].
  rewrite Forall_forall in HE. exact (HE e He).
Qed.

(** X19: on a tag that is not in a session, a click on the text sends
    tag-clicked with the value of the getter exactly when editing is off
    and changes nothing else, and a click on the remove button detaches
    the element and sends tag-removed with that value. *)
Theorem pointer_events_carry_the_value (JSON_parse : string -> option value)
        (s : PillTag) (connected : bool) :
  visited JSON_parse s ->
  contenteditable s = false ->
  tagText_click s =
    (if editable s then s else emit (TagClicked (get_textContent s)) s) /\
  removeButton_click (mkMounted s connected) =
    mkMounted (emit (TagRemoved (get_textContent s)) s) false.
Proof.
  intros V Hc.
  destruct (visited_sound _ _ V) as [[H1 H2] _].
  assert (trim (tagText s) = get_textContent s) as E.
  { unfold tagText, get_textContent. now rewrite (H2 Hc), textContent_text_nodes. }
  unfold tagText_click, removeButton_click. cbn [element]. rewrite E.
  now destruct (editable s).
Qed.

(** *** Tab with two keydown listeners *)

(** X23: with two keydown listeners (the second session of a tag) Tab
    on a rendered prediction accepts it and confirms at once: the session
    is over, the tag and the getter show the confirmed accepted text, and
    the events of that confirm are sent. *)
Theorem tab_with_two_listeners_confirms (s : PillTag) (b1 b2 : bool)
        (d g : string) (r : list node) :
  listeners s = [b1; b2] ->
  childNodes s = Text d :: r ->
  find_prediction (childNodes s) = Some g ->
  let accepted := with_selected (set_tagText (d ++ g) s) CaretAtEnd in
  let after := fst (keydown_event Tab s) in
  after = confirm_guarded 1 accepted /\
  contenteditable after = false /\
  tagText after = confirmed_value accepted /\
  get_textContent after = confirmed_value accepted /\
  events after = (events s ++ confirm_events accepted)%list.
Proof.
  intros Hl Hc Hp accepted after.
  assert (after = confirm_guarded 1 accepted) as E.
  { subst after. rewrite keydown_event_fst, Hl.
    cbn [length seq fold_left keydown_listener fst]. rewrite Hp. cbn [fst].
    unfold confirmPrediction. rewrite Hp, Hc. cbn [node_text]. fold accepted.
    assert (find_prediction (childNodes accepted) = None) as ->
        by apply find_prediction_text_nodes.
    reflexivity. }
  rewrite E. split; [reflexivity|].
  destruct (confirm_guarded_settled 1 accepted) as (H1 & H2 & H3 & H4).
  unfold get_textContent, tagText. rewrite H1, H2, H3, H4, textContent_text_nodes.
  repeat split.
Qed.

Lemma tab_with_two_listeners_confirms_witness :
  contenteditable (fst (keydown_event Tab tag_second_session)) = false /\
  get_textContent (fst (keydown_event Tab tag_second_session)) = "Apple".
Proof.
  destruct (tab_with_two_listeners_confirms tag_second_session false false "Ap" "ple"
              [Prediction "ple"] eq_refl eq_refl eq_refl) as (_ & H1 & _ & H2 & _).
  split; [exact H1|exact H2].
Defined.

Lemma tag_foo_visited : visited parse_literals tag_foo.
Proof.
  apply visited_step with (s := construct "Foo" (Some ["Apple"])).
  - apply visited_construct.
  - exact (step_connected _ true false).
Qed.

Lemma tag_kiwi_visited : visited parse_literals tag_kiwi.
Proof.
  unfold tag_kiwi.
  eapply visited_step; [|apply step_key].
  eapply visited_step; [|apply step_input; vm_compute; reflexivity].
  eapply visited_step; [|apply step_focus].
  apply tag_foo_visited.
Qed.

Lemma value_is_always_trimmed_witness :
  get_textContent tag_kiwi = "Kiwi" /\
  trim (get_textContent tag_kiwi) = get_textContent tag_kiwi.
Proof.
  split; [vm_compute; reflexivity|].
  exact (value_is_always_trimmed parse_literals tag_kiwi tag_kiwi_visited).
Defined.

Lemma idle_tag_is_clean_witness :
  contenteditable tag_kiwi = false /\
  tagText tag_kiwi = get_textContent tag_kiwi /\
  labelShown tag_kiwi = false.
Proof.
  assert (contenteditable tag_kiwi = false) as Hc by (vm_compute; reflexivity).
  destruct (idle_tag_is_clean parse_literals tag_kiwi tag_kiwi_visited Hc)
    as (H1 & _ & _ & H2).
  split; [exact Hc|]. split; [exact H1|exact H2].
Defined.

Lemma events_are_well_formed_witness :
  In (TagUpdated "Kiwi" "Foo") (events tag_kiwi) /\
  "Kiwi" <> "Foo" /\ "Foo" <> placeholder.
Proof.
  assert (In (TagUpdated "Kiwi" "Foo") (events tag_kiwi)) as Hin
      by (vm_compute; left; reflexivity).
  destruct (events_are_well_formed parse_literals tag_kiwi tag_kiwi_visited
              (TagUpdated "Kiwi" "Foo") Hin) as (_ & _ & _ & H1 & H2 & _).
  split; [exact Hin|]. split; [exact H1|exact H2].
Defined.

Lemma pointer_events_carry_the_value_witness :
  contenteditable tag_foo = false /\
  removeButton_click (mkMounted tag_foo true) =
    mkMounted (emit (TagRemoved (get_textContent tag_foo)) tag_foo) false.
Proof.
  assert (contenteditable tag_foo = false) as Hc by (vm_compute; reflexivity).
  split; [exact Hc|].
  exact (proj2 (pointer_events_carry_the_value parse_literals tag_foo true
                  tag_foo_visited Hc)).
Defined.

(** *** Listeners *)

Lemma set_justConfirmed_length i b s :
  length (listeners (set_justConfirmed i b s)) = length (listeners s).
Proof.
  unfold set_justConfirmed. fields.
  rewrite <- (firstn_skipn i (listeners s)) at 3.
  rewrite !length_app. destruct (skipn i (listeners s)); reflexivity.
Qed.

Lemma confirmEdit_listeners s : listeners (confirmEdit s) = listeners s.
Proof.
  rewrite confirmEdit_unfold.
  apply tagText_blur_ind with (P := fun st => listeners st = listeners s);
    [reflexivity|auto|].
  intros st H. now rewrite abortEdit_listeners.
Qed.

Lemma keydown_listener_length k i s :
  length (listeners (fst (keydown_listener k i s))) = length (listeners s).
Proof.
  assert (length (listeners (confirm_guarded i s)) = length (listeners s)) as G.
  { unfold confirm_guarded, setTimeout_reset. fields.
    now rewrite confirmEdit_listeners, set_justConfirmed_length. }
  destruct k; cbn [keydown_listener fst]; [assumption|now rewrite abortEdit_listeners| |reflexivity].
  destruct (find_prediction (childNodes s)); cbn [fst]; [|assumption].
  destruct (confirmPrediction s) as [s'|] eqn:C; [|reflexivity].
  destruct (confirmPrediction_frame s s' C) as (_ & Fl & _). now rewrite Fl.
Qed.

Lemma focus_event_listeners s :
  listeners (focus_event s) =
  if focused s then listeners s else (listeners s ++ [false])%list.
Proof.
  unfold focus_event, tagText_focus. destruct (focused s) eqn:Hf; [reflexivity|].
  destruct (editable s) eqn:He.
  - now rewrite focus_listener_editable by (fields; first [assumption|reflexivity]).
  - unfold focus_listener, openEdit_with. fields. now rewrite He.
Qed.

Lemma edit_listeners s :
  listeners (edit s) =
  if editable s && negb (focused s) then (listeners s ++ [false])%list else listeners s.
Proof.
  unfold edit. destruct (editable s) eqn:He.
  - destruct (focused s) eqn:Hf.
    + unfold openEdit. now rewrite openEdit_with_focused.
    + now rewrite openEdit_unfocused.
  - unfold openEdit, openEdit_with. now rewrite He.
Qed.

(** X20: no call and no event removes a listener: every step keeps
    the number of listener triples or adds one, and a focus on the
    unfocused element adds exactly one, editable or not. *)
Theorem listeners_are_never_removed (s s' : PillTag) :
  step s s' ->
  length (listeners s) <= length (listeners s') <= S (length (listeners s)) /\
  length (listeners (focus_event s)) =
    if focused s then length (listeners s) else S (length (listeners s)).
Proof.
  intros St. split.
  - destruct St as [e r|v|v|v|v|v| | | |k|ns Hc| ].
    + simpl. lia.
    + destruct v; simpl; lia.
    + destruct v; simpl; lia.
    + destruct v; simpl; lia.
    + destruct v; simpl; lia.
    + destruct v; simpl; lia.
    + rewrite edit_listeners. destruct (editable s && negb (focused s));
        rewrite ?length_app; simpl; lia.
    + rewrite focus_event_listeners. destruct (focused s);
        rewrite ?length_app; simpl; lia.
    + assert (listeners (blur_event s) = listeners s) as ->; [|lia].
      unfold blur_event.
      apply tagText_blur_ind with (P := fun st => listeners st = listeners s);
        [reflexivity|auto|].
      intros st H. now rewrite abortEdit_listeners.
    + assert (length (listeners (fst (keydown_event k s))) = length (listeners s)) as ->; [|lia].
      apply keydown_event_ind with (P := fun st => length (listeners st) = length (listeners s));
        [reflexivity|].
      intros i st H. now rewrite keydown_listener_length.
    + destruct (input_event_frame ns s) as (_ & Fl & _). rewrite Fl. lia.
    + assert (length (listeners (run_timers s)) = length (listeners s)) as ->; [|lia].
      apply run_timers_ind with (P := fun st => length (listeners st) = length (listeners s));
        [reflexivity| |auto].
      intros i b st H. now rewrite set_justConfirmed_length.
  - rewrite focus_event_listeners. destruct (focused s); [reflexivity|].
    rewrite length_app. simpl. lia.
Qed.

Lemma listeners_are_never_removed_witness :
  length (listeners (blur_event (focus_event tag_locked))) = 1 /\
  length (listeners (focus_event (blur_event (focus_event tag_locked)))) = 2.
Proof.
  split; [reflexivity|].
  exact (proj2 (listeners_are_never_removed (blur_event (focus_event tag_locked)) _
                  (step_focus _))).
Defined.

(** *** Who emits *)

Lemma focus_event_events s : events (focus_event s) = events s.
Proof.
  unfold focus_event, tagText_focus. destruct (focused s) eqn:Hf; [reflexivity|].
  destruct (editable s) eqn:He.
  - now rewrite focus_listener_editable by (fields; first [assumption|reflexivity]).
  - unfold focus_listener, openEdit_with. fields. now rewrite He.
Qed.

Lemma blur_event_events s : events (blur_event s) = events s.
Proof.
  unfold blur_event.
  apply tagText_blur_ind with (P := fun st => events st = events s);
    [reflexivity|auto|].
  intros st H. now rewrite abortEdit_unfold.
Qed.

(** X21: events are sent by the confirm and by the clicks only: the
    entry, a focus, a blur, an input, Escape, the other keys, the timers
    and all setters leave the list of sent events as it is. *)
Theorem only_confirm_and_click_emit (s : PillTag) (v : value) (ns : list node) :
  events (edit s) = events s /\
  events (focus_event s) = events s /\
  events (blur_event s) = events s /\
  events (input_event ns s) = events s /\
  events (fst (keydown_event Escape s)) = events s /\
  events (fst (keydown_event OtherKey s)) = events s /\
  events (run_timers s) = events s /\
  events (set_textContent v s) = events s /\
  events (set_autoComplete v s) = events s /\
  events (set_editable v s) = events s /\
  events (set_removable v s) = events s /\
  events (addAutoComplete v s) = events s.
Proof.
  split; [apply openEdit_events|].
  split; [apply focus_event_events|].
  split; [apply blur_event_events|].
  split; [apply input_event_frame|].
  split.
  { apply keydown_event_ind with (P := fun st => events st = events s); [reflexivity|].
    intros i st H. cbn [keydown_listener fst]. now rewrite abortEdit_unfold. }
  split; [now rewrite other_key_ignored|].
  split.
  { apply run_timers_ind with (P := fun st => events st = events s); auto. }
  repeat split; destruct v; reflexivity.
Qed.

(** *** The hint and the selection *)

Lemma eqb_empty x : (x =? "") = is_empty x.
Proof. now destruct x. Qed.

Lemma opened_entry s :
  tagText (opened s) = (if trim (tagText s) =? placeholder then "" else tagText s) /\
  labelShown (opened s) = is_empty (trim (tagText (opened s))) /\
  selected (opened s) =
    (if labelShown (opened s) then selected s else ContentsSelected).
Proof.
  unfold opened, tagText. fields.
  destruct (trim (textContent (childNodes s)) =? placeholder); cbn [textContent];
    rewrite eqb_empty; repeat split.
Qed.

(** X22: with editing on, [edit()] opens a session and gives the
    element the focus, empties a tag that shows the placeholder, shows the
    hint exactly when the text is then blank and selects the whole text
    otherwise, and leaves the suggestions alone. *)
Theorem entry_shows_hint_or_selects (s : PillTag) :
  editable s = true ->
  contenteditable (edit s) = true /\
  focused (edit s) = true /\
  tagText (edit s) = (if trim (tagText s) =? placeholder then "" else tagText s) /\
  labelShown (edit s) = is_empty (trim (tagText (edit s))) /\
  selected (edit s) = (if labelShown (edit s) then selected s else ContentsSelected) /\
  autoComplete (edit s) = autoComplete s.
Proof.
  intros He. unfold edit. destruct (focused s) eqn:Hf.
  - unfold openEdit. rewrite openEdit_with_focused by assumption.
    destruct (opened_entry s) as (H1 & H2 & H3).
    repeat split; assumption.
  - rewrite openEdit_unfocused by assumption.
    destruct (opened_entry (with_focused s true)) as (H1 & H2 & H3).
    repeat split; assumption.
Qed.

Lemma entry_shows_hint_or_selects_witness :
  labelShown (edit tag_new) = true /\ selected (edit tag_new) = Untouched /\
  labelShown (edit tag_foo) = false /\ selected (edit tag_foo) = ContentsSelected.
Proof.
  destruct (entry_shows_hint_or_selects tag_new eq_refl) as (_ & _ & _ & H1 & H2 & _).
  destruct (entry_shows_hint_or_selects tag_foo eq_refl) as (_ & _ & _ & H3 & H4 & _).
  split; [exact H1|]. split; [exact H2|]. split; [exact H3|exact H4].
Defined.

(** * The session as the listeners run it *)

(** ** Enter with several keydown listeners *)

Lemma confirm_events_rule s :
  confirm_events s =
  if negb (confirmed_value s =? originalText s) && negb (originalText s =? placeholder)
  then [TagUpdated (confirmed_value s) (originalText s)]
  else if originalText s =? placeholder then [TagAdded (confirmed_value s)] else [].
Proof.
  unfold confirm_events.
  destruct (originalText s =? placeholder); [|now rewrite app_nil_r].
  now rewrite andb_false_r.
Qed.

Lemma settled_confirmed_value v E s :
  trim v = v -> titleCase v = v -> is_empty v = false ->
  settled v E s -> confirmed_value s = v /\ confirm_events s =
    if v =? placeholder then [TagAdded v] else [].
Proof.
  intros Ht Hc Hn (Hch & Ho & _ & _).
  assert (confirmed_value s = v) as Hv.
  { unfold confirmed_value, tagText. now rewrite Hch, textContent_text_nodes, Ht, Hn. }
  split; [assumption|].
  rewrite confirm_events_rule, Hv, Ho, String.eqb_refl. reflexivity.
Qed.

Lemma confirm_guarded_again v E i s :
  trim v = v -> titleCase v = v -> is_empty v = false ->
  settled v E s ->
  settled v (E ++ if v =? placeholder then [TagAdded v] else [])%list (confirm_guarded i s).
Proof.
  intros Ht Hc Hn H.
  destruct (settled_confirmed_value v E s Ht Hc Hn H) as [Hv He].
  pose proof (confirm_guarded_settled i s) as G.
  rewrite Hv, He in G. destruct H as (_ & _ & _ & Hev). now rewrite Hev in G.
Qed.

Lemma repeat_snoc {A} (x : A) n : (repeat x n ++ [x])%list = x :: repeat x n.
Proof. induction n; simpl; [reflexivity|]. now rewrite IHn. Qed.

Lemma confirm_guarded_all v l :
  trim v = v -> titleCase v = v -> is_empty v = false ->
  forall E s,
    settled v E s ->
    settled v (E ++ if v =? placeholder then repeat (TagAdded v) (length l) else [])%list
      (fold_left (fun st i => fst (keydown_listener Enter i st)) l s).
Proof.
  intros Ht Hc Hn.
  induction l as [|i l IH]; intros E s H; simpl.
  - destruct (v =? placeholder); now rewrite app_nil_r.
  - cbn [keydown_listener fst].
    pose proof (IH _ _ (confirm_guarded_again v E i s Ht Hc Hn H)) as G.
    destruct (v =? placeholder).
    + rewrite <- app_assoc in G. exact G.
    + now rewrite app_nil_r in G.
Qed.

Lemma enter_settled s b more :
  listeners s = b :: more ->
  settled (confirmed_value s)
    (events s ++ enter_events (confirmed_value s) (originalText s) (length more))%list
    (fst (keydown_event Enter s)).
Proof.
  intros Hl. rewrite keydown_event_fst, Hl.
  cbn [length seq fold_left keydown_listener fst].
  pose proof (confirm_guarded_all (confirmed_value s) (seq 1 (length more))
                (trim_confirmed_value s) (titleCase_confirmed_value s)
                (confirmed_value_not_empty s) _ _ (confirm_guarded_settled 0 s)) as G.
  rewrite length_seq, <- app_assoc, confirm_events_rule in G.
  unfold enter_events.
  destruct (confirmed_value s =? placeholder) eqn:E; [|exact G].
  apply String.eqb_eq in E. rewrite E in G. rewrite E. exact G.
Qed.

Lemma enter_without_listener s : listeners s = [] -> fst (keydown_event Enter s) = s.
Proof. intros H. rewrite keydown_event_fst, H. reflexivity. Qed.

Lemma settled_shows v E s :
  settled v E s ->
  tagText s = v /\ get_textContent s = v /\ contenteditable s = false /\ events s = E.
Proof.
  intros (Hc & Ho & He & Hev). unfold tagText, get_textContent.
  now rewrite Hc, textContent_text_nodes.
Qed.

(** C2, as the listeners run it: Enter runs [#confirmEdit] once for every
    keydown listener the focus listener has installed. The first run emits
    by the rule of the claim: tag-updated, with the confirmed value and the
    old [originalText], exactly when the two differ and [originalText] is
    not the placeholder; otherwise tag-added, with the confirmed value,
    exactly when [originalText] is the placeholder. Every further run finds
    the confirmed value in [originalText] and emits tag-added once more
    when that value is the placeholder. Tab without a rendered prediction
    is Enter. So in the second session of the tag that shows "Tag", Enter
    on the emptied text emits tag-updated and then tag-added, although
    [originalText] was not the placeholder. *)
Theorem enter_emits_once_per_listener (s : PillTag) :
  let v := confirmed_value s in
  let o := originalText s in
  let after := fst (keydown_event Enter s) in
  match listeners s with
  | [] => after = s
  | _ :: more =>
      events after =
        (events s ++
         (if negb (v =? o) && negb (o =? placeholder) then [TagUpdated v o]
          else if o =? placeholder then [TagAdded v] else []) ++
         (if v =? placeholder then repeat (TagAdded placeholder) (length more)
          else []))%list /\
      tagText after = v /\ get_textContent after = v /\
      contenteditable after = false
  end /\
  (find_prediction (childNodes s) = None -> fst (keydown_event Tab s) = after) /\
  originalText tag_cleared = "Tag" /\
  tagText tag_cleared = "" /\
  contenteditable tag_cleared = true /\
  listeners tag_cleared = [false; false] /\
  events tag_cleared = [] /\
  events (fst (keydown_event Enter tag_cleared)) =
    [TagUpdated "New Tag" "Tag"; TagAdded "New Tag"].
Proof.
  intros v o after. split; [|split].
  - destruct (listeners s) as [|b more] eqn:Hl.
    + now apply enter_without_listener.
    + destruct (settled_shows _ _ _ (enter_settled s b more Hl)) as (H1 & H2 & H3 & H4).
      repeat split; assumption.
  - intros Hp. now apply tab_without_prediction_is_enter.
  - vm_compute. repeat split.
Qed.



(** A draft of white space is not an empty text for [#confirmEdit] when a
    ghost text is rendered: the confirm reads the ghost text too. *)
Example placeholder_space_confirms_ghost_text :
  let st := input_event [Text " "] (focus_event (fresh_tag "New Tag" ["Apple"])) in
  childNodes st = [Text " "; Prediction "pple"] /\
  trim (draft st) = "" /\
  tagText (fst (keydown_event Enter st)) = "Pple" /\
  events (fst (keydown_event Enter st)) = [TagAdded "Pple"].
Proof. vm_compute. repeat split. Qed.

(** ** Escape and blur with several listeners *)















(** From the second focus of a tag on, an abort of an empty text
    registers the value that is restored: the blur that ends the first
    session below registers nothing, the Escape in the second registers
    "Tag". *)
Example abort_in_second_session_registers_value :
  let first := blur_event (input_event [] (focus_event (fresh_tag "Tag" ["Apple"]))) in
  let second := input_event [] (focus_event first) in
  tagText first = "Tag" /\ autoComplete first = ["Apple"] /\
  tagText second = "" /\ listeners second = [false; false] /\
  tagText (fst (keydown_event Escape second)) = "Tag" /\
  autoComplete (fst (keydown_event Escape second)) = ["Apple"; "Tag"] /\
  autoComplete (blur_event second) = ["Apple"; "Tag"].
Proof. vm_compute. repeat split. Qed.

(** Escape leaves the focus on the tag: in the first session an Escape on
    the emptied text registers nothing, and the blur that follows registers
    the value that was restored. *)
Example blur_after_escape_registers_value :
  let escaped := fst (keydown_event Escape
                        (input_event [] (focus_event (fresh_tag "Tag" ["Apple"])))) in
  tagText escaped = "Tag" /\ contenteditable escaped = false /\
  focused escaped = true /\ autoComplete escaped = ["Apple"] /\
  autoComplete (blur_event escaped) = ["Apple"; "Tag"].
Proof. vm_compute. repeat split. Qed.

(** * The prediction on strings of code units *)

(** ** The order of [sort] on code units *)

Lemma unit_leb_refl a : UTF16.leb a a = true.
Proof. induction a as [|x a IH]; simpl; [reflexivity|]. now rewrite N.ltb_irrefl. Qed.

Lemma unit_leb_total a : forall b, UTF16.leb a b = false -> UTF16.leb b a = true.
Proof.
  induction a as [|x a IH]; intros [|y b]; simpl; try discriminate; [reflexivity|].
  destruct (N.ltb_spec x y), (N.ltb_spec y x); intros Hab;
    try discriminate; try reflexivity; try lia.
  now apply IH.
Qed.

Lemma unit_leb_antisym a :
  forall b, UTF16.leb a b = true -> UTF16.leb b a = true -> a = b.
Proof.
  induction a as [|x a IH]; intros [|y b]; simpl; try discriminate; [reflexivity|].
  destruct (N.ltb_spec x y), (N.ltb_spec y x); try discriminate; try lia.
  intros H1 H2. f_equal; [lia|now apply IH].
Qed.

Lemma unit_leb_trans a :
  forall b c, UTF16.leb a b = true -> UTF16.leb b c = true -> UTF16.leb a c = true.
Proof.
  induction a as [|x a IH]; intros [|y b] [|z c]; simpl; try discriminate;
    try reflexivity.
  destruct (N.ltb_spec x y), (N.ltb_spec y x), (N.ltb_spec y z), (N.ltb_spec z y),
    (N.ltb_spec x z), (N.ltb_spec z x);
    try discriminate; try reflexivity; try lia.
  apply IH.
Qed.

Lemma unit_insert_sorted_perm x l : Permutation (x :: l) (UTF16.insert_sorted x l).
Proof.
  induction l as [|y r IH]; simpl; [apply Permutation_refl|].
  destruct (UTF16.leb x y); [apply Permutation_refl|].
  eapply perm_trans; [apply perm_swap|]. now apply perm_skip.
Qed.

Lemma unit_sort_perm l : Permutation l (UTF16.sort l).
Proof.
  induction l as [|x r IH]; simpl; [constructor|].
  eapply perm_trans; [apply perm_skip, IH|apply unit_insert_sorted_perm].
Qed.

Lemma unit_insert_sorted_sorted x l :
  Sorted UTF16.ordered l -> Sorted UTF16.ordered (UTF16.insert_sorted x l).
Proof.
  induction l as [|y r IH]; simpl; intros S.
  - repeat constructor.
  - destruct (UTF16.leb x y) eqn:E.
    + constructor; [assumption|]. now constructor.
    + inversion S as [|? ? Sr Hy]; subst.
      constructor; [now apply IH|].
      destruct r as [|z r']; simpl.
      * constructor. now apply unit_leb_total.
      * destruct (UTF16.leb x z); constructor.
        -- now apply unit_leb_total.
        -- now inversion Hy.
Qed.

Lemma unit_sort_sorted l : Sorted UTF16.ordered (UTF16.sort l).
Proof.
  induction l; simpl; [constructor|]. now apply unit_insert_sorted_sorted.
Qed.

Lemma unit_sorted_hd_least l :
  Sorted UTF16.ordered l -> forall d x, In x l -> UTF16.leb (hd d l) x = true.
Proof.
  induction 1 as [|y r S IH Hy]; intros d x; simpl; [tauto|].
  intros [->|Hx]; [apply unit_leb_refl|].
  destruct r as [|z r']; [destruct Hx|].
  inversion Hy; subst.
  eapply unit_leb_trans; [eassumption|]. now apply (IH z).
Qed.

Lemma unit_sort_in x l : In x (UTF16.sort l) <-> In x l.
Proof.
  split; intros H.
  - eapply Permutation_in; [apply Permutation_sym, unit_sort_perm|assumption].
  - eapply Permutation_in; [apply unit_sort_perm|assumption].
Qed.

Lemma unit_sort_first_least l :
  l <> [] ->
  In (nth 0 (UTF16.sort l) []) l /\
  forall x, In x l -> UTF16.leb (nth 0 (UTF16.sort l) []) x = true.
Proof.
  intros N.
  assert (UTF16.sort l <> []) as N'.
  { intros E. apply N, Permutation_nil. rewrite <- E.
    apply Permutation_sym, unit_sort_perm. }
  assert (nth 0 (UTF16.sort l) [] = hd [] (UTF16.sort l)) as ->
      by now destruct (UTF16.sort l).
  split.
  - apply unit_sort_in. destruct (UTF16.sort l); [congruence|now left].
  - intros x Hx. apply unit_sorted_hd_least; [apply unit_sort_sorted|now apply unit_sort_in].
Qed.

(** ** [slice] and the tests of [#predictEdit] *)

(** The part of a string before [slice n] and the part it returns. *)
Lemma unit_slice_split n : forall s,
  s = (firstn n s ++ UTF16.slice n s)%list /\
  length (firstn n s) = Nat.min n (length s).
Proof.
  induction n as [|n IH]; intros [|u r]; simpl; try (split; reflexivity).
  destruct (IH r) as [H1 H2]. split; [now f_equal|now f_equal].
Qed.

Lemma unit_pick_computed lower_case S T :
  T <> [] -> UTF16.candidates lower_case S T <> [] ->
  UTF16.pick lower_case S T =
  Some (nth 0 (UTF16.sort (UTF16.candidates lower_case S T)) []).
Proof.
  intros HT HC. unfold UTF16.pick.
  assert (S <> []) as HS by (intros ->; now apply HC).
  destruct S as [|x S]; [congruence|]. destruct T as [|u T]; [congruence|].
  cbn [length Nat.ltb Nat.leb andb].
  now destruct (UTF16.candidates lower_case (x :: S) (u :: T)).
Qed.

(** Without a surrogate pair the code points are the code units. *)
Lemma code_points_bmp s :
  forallb (fun u => negb (UTF16.is_high_surrogate u)) s = true ->
  UTF16.code_points s = s.
Proof.
  induction s as [|h r IH]; [reflexivity|].
  cbn [forallb]. intros H. apply andb_prop in H. destruct H as [Hh Hr].
  cbn [UTF16.code_points]. destruct r as [|l r']; [reflexivity|].
  apply negb_true_iff in Hh. rewrite Hh. cbn [andb]. f_equal. now apply IH.
Qed.

(** C4, as the code has it: when the draft has a code unit and there is a
    candidate, [filtered.sort()[0]] is the one candidate that is below all
    others in the order of code units, compared with their stored case,
    whatever [toLowerCase] does outside ASCII; the ghost text is what is
    left of that candidate after as many code units as the draft has; and
    where the code points of the candidates are their code units, the
    candidate is the first in the order of code points as well. *)
Theorem prediction_picks_first_in_code_unit_order
        (lower_case : list N -> list N) (S : list (list N)) (T : list N) :
  T <> [] ->
  UTF16.candidates lower_case S T <> [] ->
  exists m before ghost,
    UTF16.pick lower_case S T = Some m /\
    In m (UTF16.candidates lower_case S T) /\
    (forall x, In x (UTF16.candidates lower_case S T) -> UTF16.leb m x = true) /\
    (forall m', In m' (UTF16.candidates lower_case S T) ->
                (forall x, In x (UTF16.candidates lower_case S T) ->
                           UTF16.leb m' x = true) -> m' = m) /\
    UTF16.predict lower_case S T = Some ghost /\
    m = (before ++ ghost)%list /\
    length before = Nat.min (length T) (length m) /\
    ((forall x, In x (UTF16.candidates lower_case S T) -> UTF16.code_points x = x) ->
     forall x, In x (UTF16.candidates lower_case S T) ->
               UTF16.code_point_leb m x = true).
Proof.
  intros HT HC.
  destruct (unit_sort_first_least (UTF16.candidates lower_case S T) HC) as [Hin Hle].
  set (m := nth 0 (UTF16.sort (UTF16.candidates lower_case S T)) []) in *.
  destruct (unit_slice_split (length T) m) as [H1 H2].
  exists m, (firstn (length T) m), (UTF16.slice (length T) m).
  split; [now apply unit_pick_computed|].
  split; [assumption|]. split; [assumption|]. split.
  { intros m' Hm' Hle'. apply unit_leb_antisym; auto. }
  split.
  { unfold UTF16.predict. rewrite unit_pick_computed by assumption. reflexivity. }
  split; [assumption|]. split; [assumption|].
  intros Hbmp x Hx. unfold UTF16.code_point_leb.
  rewrite (Hbmp m Hin), (Hbmp x Hx). now apply Hle.
Qed.

Lemma prediction_picks_first_in_code_unit_order_witness :
  UTF16.pick (fun s => s) (map UTF16.units ["apple"; "Apricot"; "avocado"]) (UTF16.units "a") =
    Some (UTF16.units "Apricot") /\
  UTF16.predict (fun s => s) (map UTF16.units ["apple"; "Apricot"; "avocado"]) (UTF16.units "a") =
    Some (UTF16.units "pricot") /\
  exists before,
    UTF16.units "Apricot" = (before ++ UTF16.units "pricot")%list /\ length before = 1.
Proof.
  split; [reflexivity|]. split; [reflexivity|].
  destruct (prediction_picks_first_in_code_unit_order (fun s => s)
              (map UTF16.units ["apple"; "Apricot"; "avocado"]) (UTF16.units "a"))
    as (m & before & ghost & H1 & _ & _ & _ & H2 & H3 & H4 & _).
  - discriminate.
  - discriminate.
  - exists before.
    assert (m = UTF16.units "Apricot") as Hm by (injection H1 as <-; reflexivity).
    assert (ghost = UTF16.units "pricot") as Hg by (injection H2 as <-; reflexivity).
    rewrite Hm, Hg in H3. rewrite Hm in H4. split; [exact H3|exact H4].
Defined.

(** Whatever [toLowerCase] does outside ASCII: for the suggestions U+FF5E
    and U+1F600 and a draft of one space both are candidates, U+FF5E is
    the first in the order of code points, and [sort] puts U+1F600 first,
    so that the second code unit of its surrogate pair is rendered. *)
Lemma surrogates_sort_first (lower_case : list N -> list N) :
  let S := [UTF16.fullwidth_tilde; UTF16.grinning_face] in
  let T := UTF16.units " " in
  UTF16.candidates lower_case S T = S /\
  UTF16.pick lower_case S T = Some UTF16.grinning_face /\
  UTF16.predict lower_case S T = Some [0xDE00]%N /\
  ~ UTF16.picks_least_code_points lower_case S T.
Proof.
  intros S T.
  assert (UTF16.candidates lower_case S T = S) as HC by reflexivity.
  assert (UTF16.predict lower_case S T = Some [0xDE00]%N) as HP by reflexivity.
  repeat split; try reflexivity.
  intros H. specialize (H UTF16.fullwidth_tilde).
  rewrite HC, HP in H.
  assert (Some [0xDE00]%N = Some (UTF16.slice (length T) UTF16.fullwidth_tilde)) as E.
  { apply H; [now left|].
    intros x [<-|[<-|[]]]; reflexivity. }
  discriminate.
Qed.

Lemma code_point_order_is_not_sort_order :
  UTF16.code_points UTF16.fullwidth_tilde = [0xFF5E]%N /\
  UTF16.code_points UTF16.grinning_face = [0x1F600]%N /\
  UTF16.code_point_leb UTF16.fullwidth_tilde UTF16.grinning_face = true /\
  UTF16.code_point_leb UTF16.grinning_face UTF16.fullwidth_tilde = false /\
  UTF16.leb UTF16.grinning_face UTF16.fullwidth_tilde = true /\
  UTF16.candidates (fun s => s) [UTF16.fullwidth_tilde; UTF16.grinning_face] (UTF16.units " ") =
    [UTF16.fullwidth_tilde; UTF16.grinning_face] /\
  UTF16.pick (fun s => s) [UTF16.fullwidth_tilde; UTF16.grinning_face] (UTF16.units " ") =
    Some UTF16.grinning_face /\
  UTF16.predict (fun s => s) [UTF16.fullwidth_tilde; UTF16.grinning_face] (UTF16.units " ") =
    Some [0xDE00]%N /\
  ~ UTF16.picks_least_code_points (fun s => s)
      [UTF16.fullwidth_tilde; UTF16.grinning_face] (UTF16.units " ").
Proof.
  destruct (surrogates_sort_first (fun s => s)) as (H1 & H2 & H3 & H4).
  repeat split; try reflexivity. exact H4.
Qed.

(** ** The component's strings as code units *)

Lemma units_cons c r : UTF16.units (String c r) = N_of_ascii c :: UTF16.units r.
Proof. reflexivity. Qed.

Lemma units_length s : length (UTF16.units s) = String.length s.
Proof. induction s; [reflexivity|]. rewrite units_cons. simpl. now f_equal. Qed.

Lemma units_ascii s : UTF16.is_ascii (UTF16.units s) = ascii_only s.
Proof. induction s; [reflexivity|]. rewrite units_cons. simpl. now f_equal. Qed.

Lemma lower_unit_char c : UTF16.lower_unit (N_of_ascii c) = N_of_ascii (lower_char c).
Proof. destruct c as [[] [] [] [] [] [] [] []]; vm_compute; reflexivity. Qed.

Lemma is_space_char c :
  (code c <? 128)%N = true -> UTF16.is_space (N_of_ascii c) = is_space c.
Proof. destruct c as [[] [] [] [] [] [] [] []]; vm_compute; congruence. Qed.

Lemma units_toLowerCase lower_case s :
  ascii_only s = true ->
  UTF16.toLowerCase lower_case (UTF16.units s) = UTF16.units (toLowerCase s).
Proof.
  intros H. unfold UTF16.toLowerCase. rewrite units_ascii, H.
  clear H. unfold toLowerCase. induction s as [|c r IH]; [reflexivity|].
  cbn [map_chars]. rewrite !units_cons. cbn [map]. now rewrite lower_unit_char, IH.
Qed.

Lemma units_trimStart s :
  ascii_only s = true -> UTF16.trimStart (UTF16.units s) = UTF16.units (trimStart s).
Proof.
  induction s as [|c r IH]; [reflexivity|].
  cbn [ascii_only]. intros H. apply andb_prop in H. destruct H as [Hc Hr].
  rewrite units_cons. cbn [UTF16.trimStart trimStart]. rewrite (is_space_char c Hc).
  destruct (is_space c); [now apply IH|now rewrite units_cons].
Qed.

Lemma ascii_only_trimStart s : ascii_only s = true -> ascii_only (trimStart s) = true.
Proof.
  induction s as [|c r IH]; simpl; [reflexivity|].
  intros H. destruct (is_space c); [|exact H].
  apply andb_prop in H. now apply IH.
Qed.

Lemma units_trimEnd s :
  ascii_only s = true -> UTF16.trimEnd (UTF16.units s) = UTF16.units (trimEnd s).
Proof.
  induction s as [|c r IH]; [reflexivity|].
  cbn [ascii_only]. intros H. apply andb_prop in H. destruct H as [Hc Hr].
  rewrite units_cons. cbn [UTF16.trimEnd trimEnd]. rewrite (IH Hr), (is_space_char c Hc).
  destruct (trimEnd r) as [|d r'] eqn:E.
  - cbn [is_empty]. rewrite andb_true_r.
    change (UTF16.units "") with (@nil N). now destruct (is_space c).
  - cbn [is_empty]. now rewrite andb_false_r, !units_cons.
Qed.

Lemma units_trim s :
  ascii_only s = true -> UTF16.trim (UTF16.units s) = UTF16.units (trim s).
Proof.
  intros H. unfold UTF16.trim, trim.
  rewrite units_trimStart by assumption.
  now rewrite units_trimEnd by now apply ascii_only_trimStart.
Qed.

Lemma units_startsWith p : forall s,
  UTF16.startsWith (UTF16.units s) (UTF16.units p) = startsWith s p.
Proof.
  unfold startsWith.
  induction p as [|a p IH]; intros [|b s]; try reflexivity.
  rewrite !units_cons. cbn [UTF16.startsWith String.prefix]. rewrite IH.
  destruct (ascii_dec a b) as [->|N].
  - now rewrite N.eqb_refl.
  - destruct (N.eqb_spec (N_of_ascii a) (N_of_ascii b)) as [E|_]; [|reflexivity].
    exfalso. apply N.
    now rewrite <- (ascii_N_embedding a), <- (ascii_N_embedding b), E.
Qed.

Lemma units_slice n : forall s, UTF16.slice n (UTF16.units s) = UTF16.units (slice n s).
Proof.
  induction n as [|n IH]; intros [|c r]; try reflexivity.
  rewrite units_cons. cbn [UTF16.slice slice]. apply IH.
Qed.

Lemma units_leb a : forall b, UTF16.leb (UTF16.units a) (UTF16.units b) = String.leb a b.
Proof.
  unfold String.leb.
  induction a as [|x a IH]; intros [|y b]; try reflexivity.
  rewrite !units_cons. cbn [UTF16.leb String.compare]. unfold Ascii.compare.
  destruct (N.compare_spec (N_of_ascii x) (N_of_ascii y)) as [E|L|G].
  - rewrite E, N.ltb_irrefl. apply IH.
  - apply N.ltb_lt in L. now rewrite L.
  - destruct (N.ltb_spec (N_of_ascii x) (N_of_ascii y)); [lia|].
    apply N.ltb_lt in G. now rewrite G.
Qed.

Lemma units_insert_sorted x l :
  UTF16.insert_sorted (UTF16.units x) (map UTF16.units l) =
  map UTF16.units (insert_sorted x l).
Proof.
  induction l as [|y r IH]; simpl; [reflexivity|].
  rewrite units_leb. destruct (String.leb x y); simpl; [reflexivity|].
  now rewrite IH.
Qed.

Lemma units_sort l : UTF16.sort (map UTF16.units l) = map UTF16.units (sort l).
Proof.
  induction l as [|x r IH]; simpl; [reflexivity|].
  now rewrite IH, units_insert_sorted.
Qed.

Lemma units_candidates lower_case S T :
  Forall (fun x => ascii_only x = true) S -> ascii_only T = true ->
  UTF16.candidates lower_case (map UTF16.units S) (UTF16.units T) =
  map UTF16.units (candidates S T).
Proof.
  intros HS HT. unfold UTF16.candidates, candidates.
  rewrite (units_toLowerCase lower_case T HT).
  rewrite units_trim by now rewrite ascii_only_toLowerCase.
  induction HS as [|x S Hx _ IH]; simpl; [reflexivity|].
  rewrite (units_toLowerCase lower_case x Hx), units_startsWith, IH.
  now destruct (startsWith _ _).
Qed.

(** On strings of ASCII characters the functions of the component's model
    are the functions on code units: [predict] computes the prediction of
    [UTF16.predict]. *)
Lemma units_predict lower_case S T :
  Forall (fun x => ascii_only x = true) S -> ascii_only T = true ->
  UTF16.predict lower_case (map UTF16.units S) (UTF16.units T) =
  option_map UTF16.units (predict S T).
Proof.
  intros HS HT. unfold UTF16.predict, UTF16.pick, predict.
  rewrite units_candidates by assumption.
  rewrite !length_map, units_length, units_sort.
  destruct ((0 <? length S) && (0 <? String.length T))%nat; [|reflexivity].
  destruct (0 <? length (candidates S T))%nat; [|reflexivity].
  simpl. f_equal.
  change (@nil N) with (UTF16.units ""). now rewrite map_nth, units_slice.
Qed.
